(** * Fritbot intent service: a shallow embedding of [src/chat/intent.js]

    The development follows the source file top-down: JavaScript strings
    and the few [String.prototype] methods the file calls, the argument
    splitter [splitArgs], the squelch table ([squelch] / [squelched]),
    the dispatcher [handleMessage] and its domain wrapper
    [IntentService.prototype.handleMessage]. *)

From Stdlib Require Import ZArith NArith Lia Sorting.Permutation Sorting.Sorted.
From stdpp Require Import gmap list strings.

Local Open Scope Z_scope.

(** ** JavaScript strings

    A JavaScript string is a sequence of UTF-16 code units; [s[i]] is a
    code unit and [s.length] counts code units. *)

Abbreviation jsstring := (list N) (only parsing).

(** ASCII literals, for readable examples. *)
Definition js (s : string) : list N :=
  map (fun a => N.of_nat (Ascii.nat_of_ascii a)) (String.list_ascii_of_string s).

Definition ch_space : N := 32%N.
Definition ch_dquote : N := 34%N.   (* double quote *)
Definition ch_squote : N := 39%N.   (* apostrophe *)
Definition ch_colon : N := 58%N.
Definition ch_at : N := 64%N.

(** [WhiteSpace] and [LineTerminator] code units, the ones
    [String.prototype.trim] removes. *)
Definition is_white_space (c : N) : bool :=
  ((c =? 9) || (c =? 10) || (c =? 11) || (c =? 12) || (c =? 13) || (c =? 32)
   || (c =? 160) || (c =? 5760) || ((8192 <=? c) && (c <=? 8202))
   || (c =? 8232) || (c =? 8233) || (c =? 8239) || (c =? 8287)
   || (c =? 12288) || (c =? 65279))%N.

Fixpoint trim_start (s : list N) : list N :=
  match s with
  | [] => []
  | c :: s' => if is_white_space c then trim_start s' else s
  end.

Definition trim_end (s : list N) : list N := rev (trim_start (rev s)).

(** [s.trim()] *)
Definition trim (s : list N) : list N := trim_end (trim_start s).

(** The two [replace] calls: U+2018 and U+2019 become an apostrophe,
    U+201C and U+201D a double quote. *)
Definition replace_single_quotes (s : list N) : list N :=
  map (fun c => if ((c =? 8216) || (c =? 8217))%N then ch_squote else c) s.

Definition replace_double_quotes (s : list N) : list N :=
  map (fun c => if ((c =? 8220) || (c =? 8221))%N then ch_dquote else c) s.

(** [s.split(sep)] for a one-unit separator: the empty string splits into
    one empty token, and adjacent separators give empty tokens. *)
Fixpoint split (sep : N) (s : list N) : list (list N) :=
  match s with
  | [] => [[]]
  | c :: s' =>
      if (c =? sep)%N then [] :: split sep s'
      else match split sep s' with
           | tok :: rest => (c :: tok) :: rest
           | [] => [[c]]
           end
  end.

(** [s.slice(start, end)], with negative positions counted from the end;
    [None] stands for an omitted [end]. *)
Definition slice_pos (len p : Z) : Z :=
  if p <? 0 then Z.max (len + p) 0 else Z.min p len.

Definition slice (s : list N) (start : Z) (end_ : option Z) : list N :=
  let len := Z.of_nat (length s) in
  let from := slice_pos len start in
  let to := match end_ with Some e => slice_pos len e | None => len end in
  take (Z.to_nat (Z.max (to - from) 0)) (drop (Z.to_nat from) s).

(** [parts.join(' ')] *)
Fixpoint join (sep : N) (parts : list (list N)) : list N :=
  match parts with
  | [] => []
  | [p] => p
  | p :: rest => p ++ sep :: join sep rest
  end.

(** [token[0]] and [token[token.length - 1]]; [None] is [undefined]. *)
Definition first_unit (token : list N) : option N := head token.
Definition last_unit (token : list N) : option N := last token.

(** ** splitArgs *)

Module Tokenizer.

(** The three variables the [forEach] callback closes over. *)
Record vars := Vars {
  args : list (list N);
  quote : option N;
  quotedstring : list (list N)
}.

Definition is_quote_unit (c : option N) : bool :=
  match c with
  | Some q => ((q =? ch_dquote) || (q =? ch_squote))%N
  | None => false
  end.

Definition same_unit (c : option N) (q : N) : bool :=
  match c with
  | Some c' => (c' =? q)%N
  | None => false
  end.

(** The body of the [forEach] callback. *)
Definition each (v : vars) (token : list N) : vars :=
  match quote v with
  | None =>
      if is_quote_unit (first_unit token) then
        match first_unit token with
        | Some q =>
            if same_unit (last_unit token) q then
              Vars (args v ++ [slice token 1 (Some (-1))]) None (quotedstring v)
            else
              Vars (args v) (Some q) [slice token 1 None]
        | None => v
        end
      else
        Vars (args v ++ [token]) None (quotedstring v)
  | Some q =>
      if same_unit (last_unit token) q then
        Vars (args v ++ [join ch_space (quotedstring v ++ [slice token 0 (Some (-1))])])
             None []
      else
        Vars (args v) (Some q) (quotedstring v ++ [token])
  end.

Definition splitArgs (message : list N) : list (list N) :=
  let split_ :=
    split ch_space (replace_double_quotes (replace_single_quotes (trim message))) in
  let v := fold_left each split_ (Vars [] None []) in
  match quotedstring v with
  | [] => args v
  | _ :: _ => args v ++ [join ch_space (quotedstring v)]
  end.

End Tokenizer.

(** ** The world the service runs in

    [squelch_timers] is the service's table of expiry times, keyed by room;
    [now] is the instant [moment()] returns, in milliseconds.  The source
    keeps the table in an array used as a dictionary; rooms are taken not
    to be names of array properties such as length.  The dispatcher's own
    statements take no time: the clock moves only when a handler moves
    it.

    The map stands for the array's own properties as long as the two keys
    an array does not keep as ordinary entries, length and __proto__
    ([reserved_key] below), have not been assigned: assigning a moment to
    length raises a RangeError or resizes the array, and assigning to
    __proto__ replaces the prototype the lookups of absent keys fall back
    on.  For every other key an assignment is an entry, and an absent key
    reads as [undefined] or as an inherited function, which [squelched]
    takes for no mute.  Statements about reading or writing one key say
    so when they need it unreserved. *)

Record world := World {
  squelch_timers : gmap (list N) Z;
  now : Z
}.

(** A route; the dispatcher reads only [route.room], which is [null]
    ([None]) for a direct message. *)
Record route := Route { room : option (list N) }.

(** The keys an array treats apart from ordinary entries. *)
Definition reserved_key (key : list N) : bool :=
  bool_decide (key = js "length") || bool_decide (key = js "__proto__").

(** Property keys are strings: [squelch_timers[null]] is the entry
    named null. *)
Definition property_key (room : option (list N)) : list N :=
  match room with
  | Some r => r
  | None => js "null"
  end.

Definition ten_minutes : Z := 10 * 60 * 1000.

(** [squelch(room, squelched)]; an omitted second argument is [None]. *)
Definition squelch (room : option (list N)) (squelched : option bool) (w : world) : world :=
  let squelched := match squelched with None => true | Some b => b end in
  let time := now w in
  let time := if squelched then time + ten_minutes else time in
  World (<[property_key room := time]> (squelch_timers w)) (now w).

(** [squelched(room)]: [room] must be truthy (neither [null] nor the empty
    string) and have an entry; then the sign of [moment().diff(entry)]
    decides. *)
Definition squelched (room : option (list N)) (w : world) : bool :=
  match room with
  | Some (c :: r) =>
      match squelch_timers w !! (c :: r) with
      | Some timer => let delta := now w - timer in delta <? 0
      | None => false
      end
  | _ => false
  end.

(** ** Values, errors and handlers *)

Inductive jsval :=
| JUndefined
| JNull
| JBool (b : bool)
| JNumber (z : Z)
| JString (s : list N)
| JObject.

(** [ToBoolean] *)
Definition truthy (v : jsval) : bool :=
  match v with
  | JUndefined | JNull => false
  | JBool b => b
  | JNumber z => negb (z =? 0)
  | JString s => match s with [] => false | _ => true end
  | JObject => true
  end.

Inductive error :=
| TypeError                  (* calling [undefined] *)
| HandlerError (tag : N)     (* an [Error] object thrown by plugin code *)
| Nullish.                   (* [null] or [undefined] thrown by plugin code *)

Inductive outcome (A : Type) :=
| Returned (a : A)
| Threw (e : error).
Arguments Returned {A} a.
Arguments Threw {A} e.

(** A handler is plugin code bound to the bot: it may read and change the
    world (squelch a room, let time pass), then returns or throws. *)
Definition handler (Arg : Type) : Type :=
  route -> Arg -> world -> outcome jsval * world.

(** What [RegExp.prototype.exec] yields for a trigger without the global
    or sticky flag: [null], or a match with its [index] and [[0]]. *)
Record exec_result := Match { index : nat; matched0 : list N }.

Definition regexp : Type := list N -> option exec_result.

Record command := Command {
  c_trigger : regexp;
  c_core : bool;
  c_func : handler (list (list N))
}.

Record listener := Listener {
  l_trigger : regexp;
  l_func : handler (list N)
}.

(** A match object after [matched.func = ...].  Each registration binds a
    fresh function object, so a handler is identified by its position in
    the registry.  The literal [['']] has no [func]. *)
Record cmatch := CMatch {
  cm_0 : list N;
  cm_func : option (nat * handler (list (list N)))
}.

Record lmatch := LMatch {
  lm_0 : list N;
  lm_func : nat * handler (list N)
}.

(** What the dispatcher does that can be seen from outside: the handlers
    it calls, what it sends itself and what it logs.  What a handler sends
    on its own is the handler's business and not recorded. *)
Inductive event :=
| LogNotProcessing
| CommandCalled (i : nat) (r : route) (args : list (list N))
| ListenerCalled (i : nat) (r : route) (message : list N)
| Send (r : route) (key : list N)
| DirectSend (r : route) (key : list N) (arg : option (list N))
| LogUnhandled (message : list N) (er : error).

Definition command_but_silenced : list N := js "?command_but_silenced".
Definition command_not_found : list N := js "?command_not_found".
Definition generic_error : list N := js "?generic_error".

(** ** Patterns used in examples *)

Fixpoint strip_prefix (p s : list N) : option (list N) :=
  match p, s with
  | [], _ => Some s
  | a :: p', b :: s' => if (a =? b)%N then strip_prefix p' s' else None
  | _ :: _, [] => None
  end.

(** [/^lit/] for a literal without metacharacters *)
Definition re_prefix (lit : list N) : regexp :=
  fun s => match strip_prefix lit s with
           | Some _ => Some (Match 0 lit)
           | None => None
           end.

(** [/lit/]: the leftmost occurrence *)
Fixpoint re_search_from (lit : list N) (i : nat) (s : list N) : option exec_result :=
  match strip_prefix lit s with
  | Some _ => Some (Match i lit)
  | None => match s with
            | [] => None
            | _ :: s' => re_search_from lit (S i) s'
            end
  end.

Definition re_search (lit : list N) : regexp := re_search_from lit 0.

(** [/^(?:lit)?/]: always matches at 0, the empty string when [lit] is
    not there *)
Definition re_optional_prefix (lit : list N) : regexp :=
  fun s => match strip_prefix lit s with
           | Some _ => Some (Match 0 lit)
           | None => Some (Match 0 [])
           end.

(** The units that mean something other than themselves in the source of
    a regular expression: backslash, caret, dollar, dot, bar, question
    mark, star, plus, and the three kinds of brackets. *)
Definition is_metachar (c : N) : bool :=
  ((c =? 92) || (c =? 94) || (c =? 36) || (c =? 46) || (c =? 124) || (c =? 63)
   || (c =? 42) || (c =? 43) || (c =? 40) || (c =? 41) || (c =? 91) || (c =? 93)
   || (c =? 123) || (c =? 125))%N.

(** A name the constructor's RegExp matches unit for unit.  The source
    splices the name into the pattern unescaped, so a name with a
    metacharacter gives another pattern (or a SyntaxError) and is outside
    what [prompt] describes. *)
Definition literal_name (name : list N) : bool :=
  forallb (fun c => negb (is_metachar c)) name.

(** The constructor's [new RegExp('^@?' + name + ':? ')] for a name
    without metacharacters: an optional at-sign (tried first, given up on
    failure), the name, an optional colon, a space. *)
Definition prompt_after (consumed name s : list N) : option exec_result :=
  match strip_prefix name s with
  | Some rest =>
      match rest with
      | c1 :: c2 :: _ =>
          if ((c1 =? ch_colon) && (c2 =? ch_space))%N
          then Some (Match 0 (consumed ++ name ++ [ch_colon; ch_space]))
          else if (c1 =? ch_space)%N
               then Some (Match 0 (consumed ++ name ++ [ch_space]))
               else None
      | [c1] =>
          if (c1 =? ch_space)%N
          then Some (Match 0 (consumed ++ name ++ [ch_space]))
          else None
      | [] => None
      end
  | None => None
  end.

Definition prompt (name : list N) : regexp :=
  fun s =>
    match s with
    | c :: s' =>
        if (c =? ch_at)%N then
          match prompt_after [ch_at] name s' with
          | Some m => Some m
          | None => prompt_after [] name s
          end
        else prompt_after [] name s
    | [] => prompt_after [] name s
    end.

(** ** Registration *)

(** The constructor's [responds_to.map(...)], for names without
    metacharacters ([literal_name]). *)
Definition new_prompts (responds_to : list (list N)) : list regexp :=
  map prompt responds_to.

(** [loadCommand] and [loadListener] push onto the registries; a handler's
    position is the order of registration. *)
Definition loadCommand (spec : command) (commands : list command) : list command :=
  commands ++ [spec].

Definition loadListener (spec : listener) (listeners : list listener) : list listener :=
  listeners ++ [spec].

(** ** The dispatcher *)

(** [Array.prototype.sort] as the V8 of the service's day ran it on arrays
    of at most ten elements (InsertionSort in its array.js): each element
    moves left past the elements for which [comparefn(tmp, element)] is
    greater than zero. *)
Fixpoint insert_from_right {A} (comparefn : A -> A -> Z) (element : A)
    (sorted_rev : list A) : list A :=
  match sorted_rev with
  | [] => [element]
  | tmp :: rest =>
      if comparefn tmp element >? 0
      then tmp :: insert_from_right comparefn element rest
      else element :: tmp :: rest
  end.

Definition InsertionSort {A} (comparefn : A -> A -> Z) (a : list A) : list A :=
  rev (fold_left (fun sorted_rev element => insert_from_right comparefn element sorted_rev)
                 a []).

(** The comparator of line 180; the sort routine sees the boolean as a
    number. *)
Definition by_length (a b : lmatch) : bool :=
  (length (lm_0 b) <? length (lm_0 a))%nat.

Definition ToNumber (b : bool) : Z := if b then 1 else 0.

Section Dispatch.

(** The runtime's [Array.prototype.sort].  The comparator handed to it is
    not a consistent comparison function, so the language leaves the
    resulting order to the implementation. *)
Variable Array_sort : (lmatch -> lmatch -> Z) -> list lmatch -> list lmatch.

Variable commands : list command.
Variable listeners : list listener.
Variable prompts : list regexp.

(** Lines 118-125: the first prompt that matches flags the message as a
    command and is sliced off. *)
Fixpoint strip_prompt (ps : list regexp) (isCommand : bool) (message : list N)
    : bool * list N :=
  match ps with
  | [] => (isCommand, message)
  | p :: ps' =>
      match p message with
      | Some matched =>
          (true, slice message (Z.of_nat (length (matched0 matched))) None)
      | None => strip_prompt ps' isCommand message
      end
  end.

(** Lines 129-142: the candidates, in registration order, and the log
    lines for the commands held back. *)
Fixpoint find_commands (w : world) (r : route) (message : list N)
    (i : nat) (cs : list command) : list cmatch * list event :=
  match cs with
  | [] => ([], [])
  | command :: cs' =>
      let '(matches, log) := find_commands w r message (S i) cs' in
      match c_trigger command message with
      | Some matched =>
          if (index matched =? 0)%nat then
            if c_core command || negb (squelched (room r) w)
            then (CMatch (matched0 matched) (Some (i, c_func command)) :: matches, log)
            else (matches, LogNotProcessing :: log)
          else (matches, log)
      | None => (matches, log)
      end
  end.

(** Lines 145-153: start from [['']] and move to a match only when it is
    strictly longer. *)
Definition longer (matched m : cmatch) : cmatch :=
  if (length (cm_0 matched) <? length (cm_0 m))%nat then m else matched.

Definition pick (matches : list cmatch) : cmatch :=
  fold_left longer matches (CMatch [] None).

(** Line 156 *)
Definition call_command (r : route) (message : list N) (matched : cmatch) (w : world)
    : outcome unit * world * list event :=
  let args := Tokenizer.splitArgs
                (slice message (Z.of_nat (length (cm_0 matched))) None) in
  match cm_func matched with
  | None => (Threw TypeError, w, [])
  | Some (i, func) =>
      match func r args w with
      | (Returned _, w') => (Returned tt, w', [CommandCalled i r args])
      | (Threw er, w') => (Threw er, w', [CommandCalled i r args])
      end
  end.

(** Lines 167-174 *)
Fixpoint find_listeners (message : list N) (i : nat) (ls : list listener) : list lmatch :=
  match ls with
  | [] => []
  | l :: ls' =>
      match l_trigger l message with
      | Some matched =>
          LMatch (matched0 matched) (i, l_func l) :: find_listeners message (S i) ls'
      | None => find_listeners message (S i) ls'
      end
  end.

(** Lines 184-188; the result says whether the loop left through
    [return]. *)
Fixpoint run_listeners (r : route) (message : list N) (matches : list lmatch) (w : world)
    : outcome bool * world * list event :=
  match matches with
  | [] => (Returned false, w, [])
  | m :: rest =>
      match snd (lm_func m) r message w with
      | (Returned v, w') =>
          if truthy v
          then (Returned true, w', [ListenerCalled (fst (lm_func m)) r message])
          else
            let '(res, w'', t) := run_listeners r message rest w' in
            (res, w'', ListenerCalled (fst (lm_func m)) r message :: t)
      | (Threw er, w') =>
          (Threw er, w', [ListenerCalled (fst (lm_func m)) r message])
      end
  end.

(** Lines 164-190 *)
Definition listen (r : route) (message : list N) (w : world)
    : outcome bool * world * list event :=
  if negb (squelched (room r) w) then
    match find_listeners message 0 listeners with
    | [] => (Returned false, w, [])
    | m :: ms =>
        run_listeners r message
          (Array_sort (fun a b => ToNumber (by_length a b)) (m :: ms)) w
    end
  else (Returned false, w, []).

(** Lines 193-199 *)
Definition fallback (r : route) (isCommand : bool) (w : world) : list event :=
  if isCommand then
    if squelched (room r) w
    then [DirectSend r command_but_silenced (room r)]
    else [Send r command_not_found]
  else [].

Definition is_null {A} (o : option A) : bool :=
  match o with None => true | Some _ => false end.

(** [handleMessage(route, message)], lines 111-200 *)
Definition handleMessage (r : route) (message : list N) (w : world)
    : outcome unit * world * list event :=
  let '(isCommand, message) := strip_prompt prompts (is_null (room r)) message in
  let '(matches, log) :=
    if isCommand then find_commands w r message 0 commands else ([], []) in
  match matches with
  | _ :: _ =>
      let '(res, w', t) := call_command r message (pick matches) w in
      (res, w', log ++ t)
  | [] =>
      match listen r message w with
      | (Returned true, w', t) => (Returned tt, w', log ++ t)
      | (Returned false, w', t) => (Returned tt, w', log ++ t ++ fallback r isCommand w')
      | (Threw er, w', t) => (Threw er, w', log ++ t)
      end
  end.

(** The domain's error listener, lines 208-211.  The arguments of
    [console.log] are evaluated first: [er.stack] of [null] or [undefined]
    raises a TypeError, and then nothing is logged and nothing sent. *)
Definition on_error (r : route) (message : list N) (er : error)
    : outcome unit * list event :=
  match er with
  | Nullish => (Threw TypeError, [])
  | _ => (Returned tt, [LogUnhandled message er; Send r generic_error])
  end.

(** [IntentService.prototype.handleMessage], lines 203-216, taken together
    with the domain it sets up.  The wrapper has no handler of its own: a
    dispatch that throws leaves it, and the listener runs when the runtime
    hands the error to the domain.  This is the run in which it does:
    the events of the dispatch, then those of the listener.  An error the
    listener raises itself is not kept. *)
Definition IntentService_handleMessage (r : route) (message : list N) (w : world)
    : world * list event :=
  match handleMessage r message w with
  | (Returned _, w', t) => (w', t)
  | (Threw er, w', t) => (w', t ++ snd (on_error r message er))
  end.

End Dispatch.

(** ** Observations on traces *)

(** The two replies of lines 193-199. *)
Definition is_fallback (e : event) : bool :=
  match e with
  | Send _ key => bool_decide (key = command_not_found)
  | DirectSend _ key _ => bool_decide (key = command_but_silenced)
  | _ => false
  end.

Definition fallbacks (t : list event) : list event := List.filter is_fallback t.

(** Anything sent along a route. *)
Definition is_reply (e : event) : bool :=
  match e with
  | Send _ _ | DirectSend _ _ _ => true
  | _ => false
  end.

Definition no_reply (t : list event) : Prop := Forall (fun e => is_reply e = false) t.

(** The reply of the domain's error listener. *)
Definition is_generic_error (e : event) : bool :=
  match e with
  | Send _ key => bool_decide (key = generic_error)
  | _ => false
  end.

Definition generic_errors (t : list event) : list event := List.filter is_generic_error t.

Definition is_call (e : event) : bool :=
  match e with
  | CommandCalled _ _ _ | ListenerCalled _ _ _ => true
  | _ => false
  end.

Definition listener_call (r : route) (message : list N) (m : lmatch) : event :=
  ListenerCalled (fst (lm_func m)) r message.

(** Every listener call in the trace was handed [text]. *)
Definition listeners_receive (text : list N) (t : list event) : Prop :=
  forall i r m, In (ListenerCalled i r m) t -> m = text.

(** Comparing candidates by the length of what they matched. *)
Definition shorter_than (m : cmatch) (c : cmatch) : Prop :=
  (length (cm_0 c) < length (cm_0 m))%nat.
Definition no_longer_than (m : cmatch) (c : cmatch) : Prop :=
  (length (cm_0 c) <= length (cm_0 m))%nat.

(** Candidates in order of non-decreasing matched length. *)
Definition shortest_first (matches : list lmatch) : Prop :=
  StronglySorted (fun a b => (length (lm_0 a) <= length (lm_0 b))%nat) matches.

(** The world at a later (or any other) instant. *)
Definition at_time (t : Z) (w : world) : world := World (squelch_timers w) t.

(** The candidates of [pre] are called in turn from [w], each returns a
    falsy value, and the world is then [w']. *)
Inductive all_falsy (r : route) (message : list N) : list lmatch -> world -> world -> Prop :=
| all_falsy_nil w : all_falsy r message [] w w
| all_falsy_cons m pre w v w1 w2 :
    snd (lm_func m) r message w = (Returned v, w1) ->
    truthy v = false ->
    all_falsy r message pre w1 w2 ->
    all_falsy r message (m :: pre) w w2.

(** ** Handlers and fixtures used in examples *)

Definition quiet {A} : handler A := fun _ _ w => (Returned JUndefined, w).
Definition done_ {A} : handler A := fun _ _ w => (Returned (JBool true), w).
Definition faulty {A} (tag : N) : handler A := fun _ _ w => (Threw (HandlerError tag), w).
(** [function () { throw undefined; }] *)
Definition throws_undefined {A} : handler A := fun _ _ w => (Threw Nullish, w).
(** A listener that mutes the room it hears the message in and reports
    nothing. *)
Definition muting : handler (list N) :=
  fun r _ w => (Returned JUndefined, squelch (room r) None w).

Definition lobby : route := Route (Some (js "lobby")).
Definition private : route := Route None.
Definition noon : world := World ∅ 43200000.

(** ** Words and address forms *)

Definition is_quote (c : N) : bool :=
  ((c =? 34) || (c =? 39) || (c =? 8216) || (c =? 8217) || (c =? 8220) || (c =? 8221))%N.

(** A unit that is neither white space nor any of the six quote marks. *)
Definition plain_unit (c : N) : bool := negb (is_white_space c) && negb (is_quote c).

(** A non-empty run of plain units. *)
Definition is_word (w : list N) : bool :=
  match w with
  | [] => false
  | _ :: _ => forallb plain_unit w
  end.

(** A token with no separator in it. *)
Definition free_of (sep : N) (t : list N) : bool :=
  forallb (fun c => negb (c =? sep)%N) t.

(** What the two [replace] calls make of one unit. *)
Definition normal_unit (c : N) : N :=
  let c1 := if ((c =? 8216) || (c =? 8217))%N then ch_squote else c in
  if ((c1 =? 8220) || (c1 =? 8221))%N then ch_dquote else c1.

(** The tokens of a quoted span: the words [ws] with the mark [q] before
    the first and after the last. *)
Fixpoint close_last (q : N) (ws : list (list N)) : list (list N) :=
  match ws with
  | [] => []
  | [w] => [w ++ [q]]
  | w :: rest => w :: close_last q rest
  end.

Definition quote_words (q : N) (ws : list (list N)) : list (list N) :=
  match ws with
  | [] => []
  | [w] => [q :: w ++ [q]]
  | w :: rest => (q :: w) :: close_last q rest
  end.

(** A unit that [trim] and the two [replace] calls leave alone. *)
Definition solid_unit (c : N) : bool :=
  negb (is_white_space c) && (normal_unit c =? c)%N.

Definition is_solid (t : list N) : bool :=
  match t with
  | [] => false
  | _ :: _ => forallb solid_unit t
  end.

Definition is_straight_quote (q : N) : bool := ((q =? ch_dquote) || (q =? ch_squote))%N.

(** A listener handler that always returns a falsy value. *)
Definition never_claims (f : handler (list N)) : Prop :=
  forall r m w, exists v w', f r m w = (Returned v, w') /\ truthy v = false.

(** The two [replace] calls of [splitArgs] together. *)
Definition normalize (s : list N) : list N :=
  replace_double_quotes (replace_single_quotes s).

(** The four ways of addressing the bot by [name]. *)
Definition address_forms (name : list N) : list (list N) :=
  [name ++ [ch_space]; name ++ [ch_colon; ch_space];
   ch_at :: name ++ [ch_space]; ch_at :: name ++ [ch_colon; ch_space]].

Definition is_command_call (e : event) : bool :=
  match e with
  | CommandCalled _ _ _ => true
  | _ => false
  end.

Definition is_listener_call (e : event) : bool :=
  match e with
  | ListenerCalled _ _ _ => true
  | _ => false
  end.

(** * Properties *)

(** ** The tokenizer *)

Example splitArgs_quoted_word :
  Tokenizer.splitArgs (js "'hello'") = [js "hello"].
Proof. reflexivity. Qed.

Example splitArgs_quoted_span :
  Tokenizer.splitArgs (js "foo 'bar baz' qux") = [js "foo"; js "bar baz"; js "qux"].
Proof. reflexivity. Qed.

Example splitArgs_open_quote :
  Tokenizer.splitArgs (js "foo 'it is fine") = [js "foo"; js "it is fine"].
Proof. reflexivity. Qed.

Example splitArgs_double_space :
  Tokenizer.splitArgs (js "a  b") = [js "a"; js ""; js "b"].
Proof. reflexivity. Qed.

Lemma trim_start_blank (s : list N) :
  forallb is_white_space s = true -> trim_start s = [].
Proof.
  induction s as [|c s IH]; simpl; [reflexivity|].
  intros H. apply andb_prop in H as [Hc Hs].
  rewrite Hc. auto.
Qed.

Lemma trim_blank (s : list N) :
  forallb is_white_space s = true -> trim s = [].
Proof.
  intros H. unfold trim. rewrite (trim_start_blank _ H). reflexivity.
Qed.

(** C10, as the code has it: the empty string, and any string of white
    space only, splits into one argument, the empty string. *)
Theorem splitArgs_blank (message : list N) :
  forallb is_white_space message = true ->
  Tokenizer.splitArgs message = [[]].
Proof.
  intros H. unfold Tokenizer.splitArgs.
  rewrite (trim_blank _ H). reflexivity.
Qed.

Lemma splitArgs_blank_witness :
  forallb is_white_space (js "   ") = true /\ Tokenizer.splitArgs (js "   ") = [[]].
Proof.
  split; [reflexivity | apply (splitArgs_blank (js "   ")); reflexivity].
Defined.

(** C10 as stated fails: the empty string does not split into the empty
    sequence. *)
Lemma splitArgs_empty_is_not_empty :
  Tokenizer.splitArgs (js "") <> [].
Proof. vm_compute. discriminate. Qed.

(** ** The squelch table *)

Lemma squelched_spec (id : list N) (w : world) :
  id <> [] ->
  squelched (Some id) w = true <->
  exists expiry, squelch_timers w !! id = Some expiry /\ now w < expiry.
Proof.
  intros Hid. destruct id as [|c id]; [congruence|]. simpl.
  destruct (squelch_timers w !! (c :: id)) as [timer|] eqn:E.
  - rewrite Z.ltb_lt. split.
    + intros H. exists timer. split; [reflexivity | lia].
    + intros (expiry & Heq & Hlt). injection Heq as ->. lia.
  - split; [discriminate|]. intros (expiry & Heq & _). discriminate.
Qed.

Lemma squelch_lookup (id : list N) (on : option bool) (w : world) :
  squelch_timers (squelch (Some id) on w) !! id =
  Some (if match on with None => true | Some b => b end
        then now w + ten_minutes else now w).
Proof. unfold squelch. simpl. apply lookup_insert_eq. Qed.

(** C7, for the ids the guard of [squelched] lets through (not the empty
    string) and the array keeps as ordinary entries (neither length nor
    __proto__): muting holds from the call until ten minutes later,
    unmuting holds at once, and a room is muted exactly when it has an
    entry that expires strictly after now. *)
Theorem squelch_window (id : list N) (w : world) :
  id <> [] -> reserved_key id = false ->
  squelched (Some id) (squelch (Some id) (Some true) w) = true /\
  (forall t, squelched (Some id) (at_time t (squelch (Some id) (Some true) w)) = true
             <-> t < now w + 600000) /\
  (forall t, now w + 600000 < t ->
             squelched (Some id) (at_time t (squelch (Some id) (Some true) w)) = false) /\
  squelch (Some id) None w = squelch (Some id) (Some true) w /\
  squelched (Some id) (squelch (Some id) (Some false) w) = false /\
  (squelched (Some id) w = true <->
   exists expiry, squelch_timers w !! id = Some expiry /\ now w < expiry).
Proof.
  intros Hid _.
  assert (Hat : forall t, squelched (Some id) (at_time t (squelch (Some id) (Some true) w)) = true
                          <-> t < now w + 600000).
  { intros t. rewrite (squelched_spec _ _ Hid). simpl.
    rewrite lookup_insert_eq. unfold ten_minutes. split.
    - intros (expiry & Heq & Hlt). injection Heq as <-. lia.
    - intros Hlt. eexists. split; [reflexivity | lia]. }
  split; [|split; [|split; [|split; [|split]]]].
  - apply (Hat (now w)). lia.
  - exact Hat.
  - intros t Ht. apply not_true_is_false. rewrite Hat. lia.
  - reflexivity.
  - apply not_true_is_false. rewrite (squelched_spec _ _ Hid).
    rewrite squelch_lookup. intros (expiry & Heq & Hlt).
    injection Heq as <-. simpl in Hlt. lia.
  - apply squelched_spec, Hid.
Qed.

Lemma squelch_window_witness :
  js "lobby" <> [] /\ reserved_key (js "lobby") = false /\
  squelched (Some (js "lobby")) (squelch (Some (js "lobby")) (Some true) noon) = true.
Proof.
  assert (H : js "lobby" <> []) by discriminate.
  split; [exact H|]. split; [reflexivity|].
  exact (proj1 (squelch_window (js "lobby") noon H eq_refl)).
Defined.

(** C7 as stated fails for the empty id, which is not null: the guard
    treats it as a direct message. *)
Lemma squelch_empty_id_not_squelched :
  ~ (squelched (Some (js "")) (squelch (Some (js "")) (Some true) noon) = true).
Proof. vm_compute. discriminate. Qed.

(** A direct message is never squelched, whatever the table holds. *)
Lemma direct_never_squelched (w : world) : squelched None w = false.
Proof. reflexivity. Qed.

(** ** Command matching *)

Lemma find_commands_In (w : world) (r : route) (text : list N) (cs : list command) :
  forall (k : nat) (cm : cmatch),
  In cm (fst (find_commands w r text k cs)) <->
  exists (j : nat) (c : command) (mt : exec_result),
    cs !! j = Some c /\ c_trigger c text = Some mt /\ index mt = 0%nat /\
    (c_core c = true \/ squelched (room r) w = false) /\
    cm = CMatch (matched0 mt) (Some ((k + j)%nat, c_func c)).
Proof.
  induction cs as [|c cs IH]; intros k cm; simpl.
  - split; [tauto|]. intros (j & c & mt & Hj & _). discriminate.
  - destruct (find_commands w r text (S k) cs) as [matches log] eqn:Erec.
    specialize (IH (S k) cm). rewrite Erec in IH. simpl in IH.
    assert (Hshift : In cm matches <->
      exists j c' mt, (c :: cs) !! (S j) = Some c' /\ c_trigger c' text = Some mt /\
        index mt = 0%nat /\ (c_core c' = true \/ squelched (room r) w = false) /\
        cm = CMatch (matched0 mt) (Some ((k + S j)%nat, c_func c'))).
    { rewrite IH. split; intros (j & c' & mt & H1 & H2 & H3 & H4 & H5);
        exists j, c', mt; repeat split; auto; rewrite H5; do 3 f_equal; lia. }
    assert (Hhere : forall mt, c_trigger c text = Some mt -> index mt = 0%nat ->
      (c_core c = true \/ squelched (room r) w = false) ->
      (cm = CMatch (matched0 mt) (Some (k, c_func c)) \/ In cm matches <->
       exists j c' mt', (c :: cs) !! j = Some c' /\ c_trigger c' text = Some mt' /\
         index mt' = 0%nat /\ (c_core c' = true \/ squelched (room r) w = false) /\
         cm = CMatch (matched0 mt') (Some ((k + j)%nat, c_func c')))).
    { intros mt Hmt Hidx Hgate. split.
      - intros [-> | Hin].
        + exists 0%nat, c, mt. repeat split; auto. do 3 f_equal. lia.
        + apply Hshift in Hin as (j & c' & mt' & H). exists (S j), c', mt'. exact H.
      - intros ([|j] & c' & mt' & H1 & H2 & H3 & H4 & H5).
        + simpl in H1. injection H1 as <-. rewrite Hmt in H2. injection H2 as <-.
          left. rewrite H5. do 3 f_equal. lia.
        + right. apply Hshift. exists j, c', mt'. auto. }
    assert (Hskip : (forall mt, c_trigger c text = Some mt -> index mt = 0%nat ->
                      (c_core c = true \/ squelched (room r) w = false) -> False) ->
      (In cm matches <->
       exists j c' mt', (c :: cs) !! j = Some c' /\ c_trigger c' text = Some mt' /\
         index mt' = 0%nat /\ (c_core c' = true \/ squelched (room r) w = false) /\
         cm = CMatch (matched0 mt') (Some ((k + j)%nat, c_func c')))).
    { intros Hno. rewrite Hshift. split.
      - intros (j & c' & mt' & H). exists (S j), c', mt'. exact H.
      - intros ([|j] & c' & mt' & H1 & H2 & H3 & H4 & H5).
        + simpl in H1. injection H1 as <-. exfalso. eapply Hno; eauto.
        + exists j, c', mt'. auto. }
    destruct (c_trigger c text) as [mt|] eqn:Etrig.
    + destruct (index mt =? 0)%nat eqn:Eidx.
      * apply Nat.eqb_eq in Eidx.
        destruct (c_core c) eqn:Ecore; simpl.
        -- rewrite <- (Hhere mt eq_refl Eidx (or_introl eq_refl)).
           split; intros [H|H]; auto.
        -- destruct (squelched (room r) w) eqn:Esq; simpl.
           ++ apply Hskip. intros mt' _ _ [H|H]; discriminate.
           ++ rewrite <- (Hhere mt eq_refl Eidx (or_intror eq_refl)).
              split; intros [H|H]; auto.
      * apply Nat.eqb_neq in Eidx. simpl. apply Hskip.
        intros mt' Hmt' Hidx _. injection Hmt' as <-. contradiction.
    + simpl. apply Hskip. intros mt' Hmt'. discriminate.
Qed.

(** Every candidate carries a handler. *)
Lemma find_commands_func (w : world) (r : route) (text : list N)
    (cs : list command) (k : nat) (cm : cmatch) :
  In cm (fst (find_commands w r text k cs)) ->
  exists i c, cs !! (i - k)%nat = Some c /\ (k <= i)%nat /\ cm_func cm = Some (i, c_func c).
Proof.
  intros H. apply find_commands_In in H as (j & c & mt & Hj & _ & _ & _ & ->).
  exists (k + j)%nat, c. replace (k + j - k)%nat with j by lia.
  repeat split; auto. lia.
Qed.

Lemma find_commands_log (w : world) (r : route) (text : list N) (cs : list command) :
  forall k e, In e (snd (find_commands w r text k cs)) -> e = LogNotProcessing.
Proof.
  induction cs as [|c cs IH]; intros k e; simpl; [tauto|].
  specialize (IH (S k) e). destruct (find_commands w r text (S k) cs) as [matches log].
  simpl in IH.
  destruct (c_trigger c text) as [mt|]; [|exact IH].
  destruct (index mt =? 0)%nat; [|exact IH].
  destruct (c_core c || negb (squelched (room r) w)); [exact IH|].
  simpl. intros [<- | H]; auto.
Qed.

Lemma call_command_trace (r : route) (text : list N) (matched : cmatch) (w : world) (e : event) :
  In e (snd (call_command r text matched w)) -> exists i args, e = CommandCalled i r args.
Proof.
  unfold call_command. destruct (cm_func matched) as [[i func]|]; [|simpl; tauto].
  destruct (func r _ w) as [[v|er] w']; simpl; intros [<- | []]; eauto.
Qed.

(** The running best either stays where it started, nothing being
    strictly longer, or ends on the first match of maximal length. *)
Lemma fold_longer (matches : list cmatch) :
  forall best : cmatch,
  (fold_left longer matches best = best /\ Forall (no_longer_than best) matches) \/
  (exists pre m post,
     matches = pre ++ m :: post /\ fold_left longer matches best = m /\
     shorter_than m best /\ Forall (shorter_than m) pre /\ Forall (no_longer_than m) post).
Proof.
  induction matches as [|m0 ms IH]; intros best; simpl.
  - left. split; [reflexivity | constructor].
  - change (longer best m0)
      with (if (length (cm_0 best) <? length (cm_0 m0))%nat then m0 else best).
    destruct (length (cm_0 best) <? length (cm_0 m0))%nat eqn:E.
    + apply Nat.ltb_lt in E. right.
      destruct (IH m0) as [[Heq Hall] | (pre & m & post & -> & Heq & Hlt & Hpre & Hpost)].
      * exists [], m0, ms. split; [reflexivity|]. split; [exact Heq|].
        split; [exact E|]. split; [constructor | exact Hall].
      * exists (m0 :: pre), m, post. split; [reflexivity|]. split; [exact Heq|].
        unfold shorter_than in *. split; [lia|]. split; [|exact Hpost].
        constructor; [exact Hlt | exact Hpre].
    + apply Nat.ltb_ge in E.
      destruct (IH best) as [[Heq Hall] | (pre & m & post & -> & Heq & Hlt & Hpre & Hpost)].
      * left. split; [exact Heq|]. constructor; [exact E | exact Hall].
      * right. exists (m0 :: pre), m, post. split; [reflexivity|]. split; [exact Heq|].
        split; [exact Hlt|]. split; [|exact Hpost].
        constructor; [|exact Hpre]. unfold shorter_than in *. lia.
Qed.

(** When some candidate matched a non-empty substring, [pick] is the first
    candidate of maximal length. *)
Lemma pick_first_longest (matches : list cmatch) :
  Exists (fun c => cm_0 c <> []) matches ->
  exists pre m post,
    matches = pre ++ m :: post /\ pick matches = m /\
    Forall (shorter_than m) pre /\ Forall (no_longer_than m) post.
Proof.
  intros Hex. unfold pick.
  destruct (fold_longer matches (CMatch [] None))
    as [[_ Hall] | (pre & m & post & H1 & H2 & _ & H3 & H4)].
  - exfalso. apply Exists_exists in Hex as (c & Hin & Hne).
    rewrite Forall_forall in Hall. specialize (Hall c Hin).
    unfold no_longer_than in Hall. simpl in Hall.
    destruct (cm_0 c); [congruence | simpl in Hall; lia].
  - exists pre, m, post. auto.
Qed.

(** When every candidate matched the empty string, [pick] stays on the
    literal it started from, which has no handler. *)
Lemma pick_all_empty (matches : list cmatch) :
  Forall (fun c => cm_0 c = []) matches -> pick matches = CMatch [] None.
Proof.
  intros Hall. unfold pick.
  destruct (fold_longer matches (CMatch [] None))
    as [[H _] | (pre & m & post & -> & _ & Hlt & _ & _)]; [exact H|].
  exfalso. apply Forall_app in Hall as [_ Hall]. inversion Hall as [|? ? Hm _]; subst.
  unfold shorter_than in Hlt. rewrite Hm in Hlt. simpl in Hlt. lia.
Qed.

(** The longest-match rule, where it works: with a candidate that matched
    a non-empty substring, the handler called is that of the first
    candidate of maximal length, with the rest of the text split into
    arguments, and no listener is consulted. *)
Lemma handleMessage_calls_first_longest
    (Array_sort : (lmatch -> lmatch -> Z) -> list lmatch -> list lmatch)
    (commands : list command) (listeners : list listener) (prompts : list regexp)
    (r : route) (message text : list N) (w : world) (matches : list cmatch) (log : list event) :
  strip_prompt prompts (is_null (room r)) message = (true, text) ->
  find_commands w r text 0 commands = (matches, log) ->
  Exists (fun c => cm_0 c <> []) matches ->
  exists pre m post i c,
    matches = pre ++ m :: post /\
    Forall (shorter_than m) pre /\ Forall (no_longer_than m) post /\
    commands !! i = Some c /\ cm_func m = Some (i, c_func c) /\
    snd (handleMessage Array_sort commands listeners prompts r message w) =
      log ++ [CommandCalled i r
                (Tokenizer.splitArgs (slice text (Z.of_nat (length (cm_0 m))) None))].
Proof.
  intros Hstrip Hfind Hex.
  destruct (pick_first_longest matches Hex) as (pre & m & post & Hm & Hpick & Hpre & Hpost).
  assert (Hin : In m (fst (find_commands w r text 0 commands))).
  { rewrite Hfind. simpl. rewrite Hm. apply in_or_app. right. left. reflexivity. }
  apply find_commands_func in Hin as (i & c & Hc & _ & Hf).
  rewrite Nat.sub_0_r in Hc.
  exists pre, m, post, i, c. repeat split; auto.
  unfold handleMessage. rewrite Hstrip, Hfind.
  destruct matches as [|m' ms]; [destruct pre; discriminate|].
  rewrite Hpick. unfold call_command. rewrite Hf.
  destruct (c_func c r _ w) as [[v|er] w']; reflexivity.
Qed.

(** The dispatcher raises when every candidate matched the empty string:
    the call goes to the [func] of the initial literal, which is
    [undefined], and no handler runs. *)
Lemma handleMessage_all_empty
    (Array_sort : (lmatch -> lmatch -> Z) -> list lmatch -> list lmatch)
    (commands : list command) (listeners : list listener) (prompts : list regexp)
    (r : route) (message text : list N) (w : world) (m : cmatch) (ms : list cmatch)
    (log : list event) :
  strip_prompt prompts (is_null (room r)) message = (true, text) ->
  find_commands w r text 0 commands = (m :: ms, log) ->
  Forall (fun c => cm_0 c = []) (m :: ms) ->
  handleMessage Array_sort commands listeners prompts r message w = (Threw TypeError, w, log).
Proof.
  intros Hstrip Hfind Hall. unfold handleMessage. rewrite Hstrip, Hfind.
  rewrite (pick_all_empty _ Hall). unfold call_command. simpl.
  rewrite app_nil_r. reflexivity.
Qed.

Lemma pick_In (matches : list cmatch) :
  pick matches = CMatch [] None \/ In (pick matches) matches.
Proof.
  unfold pick.
  destruct (fold_longer matches (CMatch [] None))
    as [[H _] | (pre & m & post & -> & -> & _)]; [left; exact H|].
  right. apply in_or_app. right. left. reflexivity.
Qed.

(** The scenarios of the specification, with triggers that match a
    non-empty prefix. *)
Example longer_command_wins :
  snd (handleMessage InsertionSort
         [Command (re_prefix (js "play")) false quiet;
          Command (re_prefix (js "playing")) false quiet]
         [] [] private (js "playing cards") noon)
  = [CommandCalled 1 private [js "cards"]].
Proof. reflexivity. Qed.

Example first_of_equal_length_wins :
  snd (handleMessage InsertionSort
         [Command (re_prefix (js "play")) false quiet;
          Command (re_prefix (js "play")) false quiet]
         [] [] private (js "play cards") noon)
  = [CommandCalled 0 private [js "cards"]].
Proof. reflexivity. Qed.

Example core_command_called_when_squelched :
  snd (handleMessage InsertionSort
         [Command (re_prefix (js "mute")) false quiet;
          Command (re_prefix (js "mute")) true quiet]
         [] [prompt (js "bot")] lobby (js "bot: mute")
         (squelch (room lobby) (Some true) noon))
  = [LogNotProcessing; CommandCalled 1 lobby [js ""]].
Proof. vm_compute. reflexivity. Qed.

(** C5 at an input where the rule breaks: two candidates, both tied at
    length zero; no handler is invoked (the claim has the first one
    invoked) and the dispatcher raises a TypeError. *)
Theorem pick_tie_at_length_zero :
  let commands := [Command (re_optional_prefix (js "help")) false quiet;
                   Command (re_optional_prefix (js "hi")) false quiet] in
  length (fst (find_commands noon private (js "yo") 0 commands)) = 2%nat /\
  cm_func (pick (fst (find_commands noon private (js "yo") 0 commands))) = None /\
  handleMessage InsertionSort commands [] [] private (js "yo") noon
    = (Threw TypeError, noon, []).
Proof. vm_compute. repeat split. Qed.

(** C6 at an input where it breaks: a non-core and a core command with the
    same trigger in a squelched room; the trigger matches the empty string
    at offset 0.  The core command is the one candidate, yet it is not
    invoked: the dispatcher raises a TypeError. *)
Theorem core_command_not_invoked_on_empty_match :
  let commands := [Command (re_optional_prefix (js "mute")) false quiet;
                   Command (re_optional_prefix (js "mute")) true quiet] in
  let w := squelch (room lobby) (Some true) noon in
  squelched (room lobby) w = true /\
  map cm_0 (fst (find_commands w lobby (js "hello") 0 commands)) = [[]] /\
  handleMessage InsertionSort commands [] [prompt (js "bot")] lobby (js "bot: hello") w
    = (Threw TypeError, w, [LogNotProcessing]).
Proof. vm_compute. repeat split. Qed.

(** C9 at the input the claim singles out: one command whose trigger
    matches the empty string at offset 0.  The matching code itself, not a
    handler, raises; the domain turns it into the generic reply. *)
Theorem matching_raises_on_zero_length_match :
  let commands := [Command (re_optional_prefix (js "help")) false quiet] in
  handleMessage InsertionSort commands [] [] private (js "hello") noon
    = (Threw TypeError, noon, []) /\
  IntentService_handleMessage InsertionSort commands [] [] private (js "hello") noon
    = (noon, [LogUnhandled (js "hello") TypeError; Send private generic_error]).
Proof. vm_compute. repeat split. Qed.

(** ** Listener matching and execution *)

Lemma find_listeners_In (text : list N) (ls : list listener) :
  forall (k : nat) (lm : lmatch),
  In lm (find_listeners text k ls) <->
  exists (j : nat) (l : listener) (mt : exec_result),
    ls !! j = Some l /\ l_trigger l text = Some mt /\
    lm = LMatch (matched0 mt) ((k + j)%nat, l_func l).
Proof.
  induction ls as [|l ls IH]; intros k lm; simpl.
  - split; [tauto|]. intros (j & l & mt & Hj & _). discriminate.
  - assert (Hshift : In lm (find_listeners text (S k) ls) <->
      exists j l' mt, (l :: ls) !! (S j) = Some l' /\ l_trigger l' text = Some mt /\
        lm = LMatch (matched0 mt) ((k + S j)%nat, l_func l')).
    { rewrite IH. split; intros (j & l' & mt & H1 & H2 & H3);
        exists j, l', mt; repeat split; auto; rewrite H3; do 2 f_equal; lia. }
    destruct (l_trigger l text) as [mt|] eqn:Etrig; simpl.
    + split.
      * intros [<- | Hin].
        -- exists 0%nat, l, mt. repeat split; auto. do 2 f_equal. lia.
        -- apply Hshift in Hin as (j & l' & mt' & H). exists (S j), l', mt'. exact H.
      * intros ([|j] & l' & mt' & H1 & H2 & H3).
        -- simpl in H1. injection H1 as <-. rewrite Etrig in H2. injection H2 as <-.
           left. rewrite H3. do 2 f_equal. lia.
        -- right. apply Hshift. exists j, l', mt'. auto.
    + rewrite Hshift. split.
      * intros (j & l' & mt' & H). exists (S j), l', mt'. exact H.
      * intros ([|j] & l' & mt' & H1 & H2 & H3).
        -- simpl in H1. injection H1 as <-. congruence.
        -- exists j, l', mt'. auto.
Qed.

(** The loop calls the candidates of a falsy prefix in order, then goes on
    with the rest from the world they left. *)
Lemma run_listeners_app (r : route) (message : list N) (pre rest : list lmatch)
    (w w1 : world) :
  all_falsy r message pre w w1 ->
  run_listeners r message (pre ++ rest) w =
  (fst (fst (run_listeners r message rest w1)),
   snd (fst (run_listeners r message rest w1)),
   map (listener_call r message) pre ++ snd (run_listeners r message rest w1)).
Proof.
  induction 1 as [w | m pre w v w1 w2 Hm Hv Hpre IH]; simpl.
  - destruct (run_listeners r message rest w) as [[res w'] t]. reflexivity.
  - rewrite Hm, Hv, IH. reflexivity.
Qed.

(** The loop's trace holds nothing but calls, each with the loop's route
    and text and the handler of one of the candidates. *)
Lemma run_listeners_trace (r : route) (message : list N) (matches : list lmatch) :
  forall (w : world) (e : event),
  In e (snd (run_listeners r message matches w)) ->
  exists lm, In lm matches /\ e = listener_call r message lm.
Proof.
  induction matches as [|m ms IH]; intros w e; simpl; [tauto|].
  destruct (snd (lm_func m) r message w) as [[v|er] w'].
  - destruct (truthy v).
    + simpl. intros [<- | []]. exists m. auto.
    + specialize (IH w' e). destruct (run_listeners r message ms w') as [[res w''] t].
      simpl in *. intros [<- | Hin].
      * exists m. auto.
      * destruct (IH Hin) as (lm & Hlm & ->). exists lm. auto.
  - simpl. intros [<- | []]. exists m. auto.
Qed.

(** C8: while the candidates return falsy values the loop calls the next
    one in order, and at the first truthy return it ends: the calls made
    are exactly those up to and including that candidate, and none of the
    later candidates is called. *)
Theorem listeners_stop_at_first_truthy (r : route) (message : list N)
    (pre post : list lmatch) (m : lmatch) (w w1 : world) :
  all_falsy r message pre w w1 ->
  (forall v w2, snd (lm_func m) r message w1 = (Returned v, w2) -> truthy v = true ->
     run_listeners r message (pre ++ m :: post) w =
     (Returned true, w2, map (listener_call r message) (pre ++ [m]))) /\
  (forall v w2, snd (lm_func m) r message w1 = (Returned v, w2) -> truthy v = false ->
     snd (run_listeners r message (pre ++ m :: post) w) =
     map (listener_call r message) (pre ++ [m]) ++ snd (run_listeners r message post w2)) /\
  (exists t, snd (run_listeners r message (pre ++ m :: post) w) =
             map (listener_call r message) pre ++ listener_call r message m :: t).
Proof.
  intros Hpre. rewrite (run_listeners_app r message pre (m :: post) w w1 Hpre).
  rewrite map_app. simpl.
  split; [|split].
  - intros v w2 Hm Hv. rewrite Hm, Hv. reflexivity.
  - intros v w2 Hm Hv. rewrite Hm, Hv.
    destruct (run_listeners r message post w2) as [[res w'] t]. simpl.
    rewrite <- app_assoc. reflexivity.
  - destruct (snd (lm_func m) r message w1) as [[v|er] w2].
    + destruct (truthy v).
      * exists []. reflexivity.
      * destruct (run_listeners r message post w2) as [[res w'] t]. exists t. reflexivity.
    + exists []. reflexivity.
Qed.

Lemma listeners_stop_at_first_truthy_witness :
  let pre := [LMatch (js "a") (0%nat, quiet)] in
  let m := LMatch (js "ab") (1%nat, done_) in
  let post := [LMatch (js "abc") (2%nat, quiet)] in
  all_falsy lobby (js "abc") pre noon noon /\
  run_listeners lobby (js "abc") (pre ++ m :: post) noon =
  (Returned true, noon, [ListenerCalled 0 lobby (js "abc"); ListenerCalled 1 lobby (js "abc")]).
Proof.
  assert (H : all_falsy lobby (js "abc") [LMatch (js "a") (0%nat, quiet)] noon noon).
  { eapply all_falsy_cons; [reflexivity | reflexivity | apply all_falsy_nil]. }
  split; [exact H|].
  exact (proj1 (listeners_stop_at_first_truthy lobby (js "abc") _
                  [LMatch (js "abc") (2%nat, quiet)] (LMatch (js "ab") (1%nat, done_))
                  noon noon H)
               (JBool true) noon eq_refl eq_refl).
Defined.

(** Without a command candidate, the handlers called for a message are
    those of the listener loop, in its order. *)
Lemma handleMessage_listener_phase
    (Array_sort : (lmatch -> lmatch -> Z) -> list lmatch -> list lmatch)
    (commands : list command) (listeners : list listener) (prompts : list regexp)
    (r : route) (message text : list N) (isCommand : bool) (w : world) :
  strip_prompt prompts (is_null (room r)) message = (isCommand, text) ->
  isCommand = false \/ fst (find_commands w r text 0 commands) = [] ->
  List.filter is_call (snd (handleMessage Array_sort commands listeners prompts r message w))
  = snd (listen Array_sort listeners r text w).
Proof.
  intros Hstrip Hnone. unfold handleMessage. rewrite Hstrip.
  assert (Hcalls : forall t, (forall e, In e t -> is_call e = true) -> List.filter is_call t = t).
  { induction t as [|e t IH]; intros H; simpl; [reflexivity|].
    rewrite (H e (or_introl eq_refl)). f_equal. apply IH. intros e' He'. apply H. right. exact He'. }
  assert (Hnot : forall t, (forall e, In e t -> is_call e = false) -> List.filter is_call t = []).
  { induction t as [|e t IH]; intros H; simpl; [reflexivity|].
    rewrite (H e (or_introl eq_refl)). apply IH. intros e' He'. apply H. right. exact He'. }
  assert (Hl : List.filter is_call (snd (listen Array_sort listeners r text w))
               = snd (listen Array_sort listeners r text w)).
  { apply Hcalls. intros e He. unfold listen in He.
    destruct (negb (squelched (room r) w)); [|destruct He].
    destruct (find_listeners text 0 listeners); [destruct He|].
    apply run_listeners_trace in He as (lm & _ & ->). reflexivity. }
  assert (Hfb : forall b w', List.filter is_call (fallback r b w') = []).
  { intros b w'. unfold fallback. destruct b; [|reflexivity].
    destruct (squelched (room r) w'); reflexivity. }
  assert (Hgoal : forall log, List.filter is_call log = [] ->
    List.filter is_call
      (snd match listen Array_sort listeners r text w with
           | (Returned true, w', t) => (Returned tt, w', log ++ t)
           | (Returned false, w', t) => (Returned tt, w', log ++ t ++ fallback r isCommand w')
           | (Threw er, w', t) => (Threw er, w', log ++ t)
           end)
    = snd (listen Array_sort listeners r text w)).
  { intros log Hlog.
    destruct (listen Array_sort listeners r text w) as [[[[|]|er] w'] t];
      cbn [fst snd] in *; rewrite !List.filter_app, ?Hfb, Hlog, Hl, ?app_nil_r; reflexivity. }
  destruct isCommand.
  - destruct Hnone as [Hnone | Hnone]; [discriminate|].
    pose proof (find_commands_log w r text commands 0) as Hlog.
    destruct (find_commands w r text 0 commands) as [matches log].
    cbn [fst snd] in *. subst matches. apply Hgoal, Hnot.
    intros e He. rewrite (Hlog e He). reflexivity.
  - apply (Hgoal []). reflexivity.
Qed.

(** ** What the dispatcher itself sends *)

Lemma no_reply_app (t1 t2 : list event) : no_reply t1 -> no_reply t2 -> no_reply (t1 ++ t2).
Proof. unfold no_reply. intros H1 H2. apply Forall_app. auto. Qed.

Lemma no_reply_fallbacks (t : list event) : no_reply t -> fallbacks t = [].
Proof.
  induction 1 as [|e t He _ IH]; [reflexivity|]. unfold fallbacks in *. simpl.
  destruct e; simpl in *; try discriminate; exact IH.
Qed.

Lemma no_reply_generic_errors (t : list event) : no_reply t -> generic_errors t = [].
Proof.
  induction 1 as [|e t He _ IH]; [reflexivity|]. unfold generic_errors in *. simpl.
  destruct e; simpl in *; try discriminate; exact IH.
Qed.

Lemma find_commands_no_reply (w : world) (r : route) (text : list N) (cs : list command) :
  forall k, no_reply (snd (find_commands w r text k cs)).
Proof.
  induction cs as [|c cs IH]; intros k; simpl; [constructor|].
  specialize (IH (S k)). destruct (find_commands w r text (S k) cs) as [matches log].
  simpl in IH.
  destruct (c_trigger c text) as [mt|]; [|exact IH].
  destruct (index mt =? 0)%nat; [|exact IH].
  destruct (c_core c || negb (squelched (room r) w)); [exact IH|].
  constructor; [reflexivity | exact IH].
Qed.

Lemma call_command_no_reply (r : route) (text : list N) (matched : cmatch) (w : world) :
  no_reply (snd (call_command r text matched w)).
Proof.
  unfold call_command. destruct (cm_func matched) as [[i func]|]; [|constructor].
  destruct (func r _ w) as [[v|er] w']; repeat constructor.
Qed.

Lemma run_listeners_no_reply (r : route) (text : list N) (matches : list lmatch) (w : world) :
  no_reply (snd (run_listeners r text matches w)).
Proof.
  apply List.Forall_forall. intros e He.
  apply run_listeners_trace in He as (lm & _ & ->). reflexivity.
Qed.

Lemma listen_no_reply
    (Array_sort : (lmatch -> lmatch -> Z) -> list lmatch -> list lmatch)
    (listeners : list listener) (r : route) (text : list N) (w : world) :
  no_reply (snd (listen Array_sort listeners r text w)).
Proof.
  unfold listen. destruct (negb (squelched (room r) w)); [|constructor].
  destruct (find_listeners text 0 listeners); [constructor|].
  apply run_listeners_no_reply.
Qed.

Lemma fallbacks_app (t1 t2 : list event) : fallbacks (t1 ++ t2) = fallbacks t1 ++ fallbacks t2.
Proof. apply List.filter_app. Qed.

Lemma fallbacks_fallback (r : route) (w : world) :
  fallbacks (fallback r true w) =
  [if squelched (room r) w
   then DirectSend r command_but_silenced (room r)
   else Send r command_not_found].
Proof. unfold fallback. destruct (squelched (room r) w); reflexivity. Qed.

(** C1, as the code has it: a message flagged as a command for which no
    command is a candidate gets exactly one fallback reply when the
    listener phase ends without a truthy return and without an error (it
    is skipped in a squelched room): the silenced reply through the direct
    route when the room is squelched at that point, the not-found reply
    through the route otherwise.  When a listener returns a truthy value
    the dispatch ends there with no fallback reply.  A message not flagged
    as a command never gets one. *)
Theorem fallback_reply
    (Array_sort : (lmatch -> lmatch -> Z) -> list lmatch -> list lmatch)
    (commands : list command) (listeners : list listener) (prompts : list regexp)
    (r : route) (message text : list N) (isCommand : bool) (w : world) :
  strip_prompt prompts (is_null (room r)) message = (isCommand, text) ->
  let t := snd (handleMessage Array_sort commands listeners prompts r message w) in
  (isCommand = false -> fallbacks t = []) /\
  (isCommand = true -> fst (find_commands w r text 0 commands) = [] ->
   match listen Array_sort listeners r text w with
   | (Returned false, w', _) =>
       fallbacks t =
       [if squelched (room r) w'
        then DirectSend r command_but_silenced (room r)
        else Send r command_not_found]
   | (Returned true, _, _) => fallbacks t = []
   | (Threw _, _, _) => fallbacks t = []
   end).
Proof.
  intros Hstrip t. subst t. unfold handleMessage. rewrite Hstrip.
  pose proof (listen_no_reply Array_sort listeners r text w) as Hl.
  split.
  - intros ->. destruct (listen Array_sort listeners r text w) as [[[[|]|er] w'] tl];
      simpl in *; rewrite ?app_nil_r; apply no_reply_fallbacks; exact Hl.
  - intros -> Hnone.
    pose proof (find_commands_no_reply w r text commands 0) as Hlog.
    destruct (find_commands w r text 0 commands) as [matches log].
    simpl in Hnone, Hlog. subst matches.
    destruct (listen Array_sort listeners r text w) as [[[[|]|er] w'] tl];
      cbn [fst snd] in *.
    + apply no_reply_fallbacks, no_reply_app; assumption.
    + rewrite !fallbacks_app, fallbacks_fallback.
      rewrite (no_reply_fallbacks _ Hlog), (no_reply_fallbacks _ Hl). reflexivity.
    + apply no_reply_fallbacks, no_reply_app; assumption.
Qed.

Lemma fallback_reply_witness :
  strip_prompt [prompt (js "bot")] (is_null (room lobby)) (js "bot: hi") = (true, js "hi") /\
  fallbacks (snd (handleMessage InsertionSort [] [] [prompt (js "bot")] lobby (js "bot: hi") noon))
  = [Send lobby command_not_found].
Proof.
  assert (H : strip_prompt [prompt (js "bot")] (is_null (room lobby)) (js "bot: hi")
              = (true, js "hi")) by reflexivity.
  split; [exact H|].
  exact (proj2 (fallback_reply InsertionSort [] [] [prompt (js "bot")] lobby
                  (js "bot: hi") (js "hi") true noon H) eq_refl eq_refl).
Defined.

(** C1 as stated fails: the message is addressed to the bot, no command
    matches, a listener answers with a truthy value, and no fallback reply
    is sent. *)
Lemma no_fallback_after_truthy_listener :
  let listeners := [Listener (re_search (js "hi")) done_] in
  strip_prompt [prompt (js "bot")] (is_null (room lobby)) (js "bot: hi") = (true, js "hi") /\
  fst (find_commands noon lobby (js "hi") 0 []) = [] /\
  length (fallbacks (snd (handleMessage InsertionSort [] listeners [prompt (js "bot")]
                            lobby (js "bot: hi") noon))) <> 1%nat.
Proof. vm_compute. repeat split. discriminate. Qed.

(** ** The order listeners are tried in *)

Lemma insert_from_right_Permutation {A} (comparefn : A -> A -> Z) (element : A)
    (sorted_rev : list A) :
  Permutation (insert_from_right comparefn element sorted_rev) (element :: sorted_rev).
Proof.
  induction sorted_rev as [|tmp rest IH]; simpl; [reflexivity|].
  destruct (comparefn tmp element >? 0); [|reflexivity].
  rewrite IH. apply perm_swap.
Qed.

Lemma InsertionSort_Permutation {A} (comparefn : A -> A -> Z) (a : list A) :
  Permutation (InsertionSort comparefn a) a.
Proof.
  unfold InsertionSort. rewrite <- Permutation_rev.
  assert (H : forall acc, Permutation
            (fold_left (fun sorted_rev element =>
                          insert_from_right comparefn element sorted_rev) a acc)
            (a ++ acc)).
  { induction a as [|x a IH]; intros acc; simpl; [reflexivity|].
    rewrite IH, insert_from_right_Permutation. symmetry. apply Permutation_middle. }
  rewrite (H []), app_nil_r. reflexivity.
Qed.

Lemma by_length_spec (a b : lmatch) :
  (ToNumber (by_length a b) >? 0) = true <-> (length (lm_0 b) < length (lm_0 a))%nat.
Proof.
  unfold by_length, ToNumber.
  destruct (length (lm_0 b) <? length (lm_0 a))%nat eqn:E.
  - apply Nat.ltb_lt in E. split; [auto | reflexivity].
  - apply Nat.ltb_ge in E. split; [discriminate | lia].
Qed.

Lemma StronglySorted_snoc {A} (R : A -> A -> Prop) (l : list A) (x : A) :
  StronglySorted R l -> Forall (fun a => R a x) l -> StronglySorted R (l ++ [x]).
Proof.
  induction 1 as [|a l Hl IH Ha]; intros Hx; simpl.
  - repeat constructor.
  - inversion Hx; subst. constructor; [auto|].
    apply Forall_app. split; [exact Ha | repeat constructor; assumption].
Qed.

Lemma StronglySorted_rev {A} (R : A -> A -> Prop) (l : list A) :
  StronglySorted R l -> StronglySorted (fun a b => R b a) (rev l).
Proof.
  induction 1 as [|a l Hl IH Ha]; simpl; [constructor|].
  apply StronglySorted_snoc; [exact IH|].
  apply List.Forall_forall. intros b Hb. apply in_rev in Hb.
  rewrite List.Forall_forall in Ha. auto.
Qed.

(** The insertion step keeps the reversed prefix longest-first. *)
Lemma insert_from_right_sorted (element : lmatch) (sorted_rev : list lmatch) :
  StronglySorted (fun a b => (length (lm_0 b) <= length (lm_0 a))%nat) sorted_rev ->
  StronglySorted (fun a b => (length (lm_0 b) <= length (lm_0 a))%nat)
    (insert_from_right (fun a b => ToNumber (by_length a b)) element sorted_rev).
Proof.
  induction 1 as [|tmp rest Hrest IH Htmp]; simpl; [repeat constructor|].
  destruct (ToNumber (by_length tmp element) >? 0) eqn:E.
  - apply by_length_spec in E. constructor; [exact IH|].
    rewrite insert_from_right_Permutation. constructor; [lia | exact Htmp].
  - assert (Hle : (length (lm_0 tmp) <= length (lm_0 element))%nat).
    { destruct (Nat.le_gt_cases (length (lm_0 tmp)) (length (lm_0 element))) as [H|H];
        [exact H|]. apply by_length_spec in H. congruence. }
    constructor; [constructor; assumption|].
    constructor; [exact Hle|].
    eapply List.Forall_impl; [|exact Htmp]. simpl. intros b Hb. lia.
Qed.

(** With the comparator of line 180 the insertion sort orders the
    candidates by non-decreasing matched length: shortest first. *)
Lemma InsertionSort_shortest_first (matches : list lmatch) :
  shortest_first (InsertionSort (fun a b => ToNumber (by_length a b)) matches).
Proof.
  unfold shortest_first, InsertionSort.
  apply (StronglySorted_rev (fun a b => (length (lm_0 b) <= length (lm_0 a))%nat)).
  assert (H : forall acc,
            StronglySorted (fun a b => (length (lm_0 b) <= length (lm_0 a))%nat) acc ->
            StronglySorted (fun a b => (length (lm_0 b) <= length (lm_0 a))%nat)
              (fold_left (fun sorted_rev element =>
                 insert_from_right (fun a b => ToNumber (by_length a b)) element sorted_rev)
                 matches acc)).
  { induction matches as [|m ms IH]; intros acc Hacc; simpl; [exact Hacc|].
    apply IH, insert_from_right_sorted, Hacc. }
  apply H. constructor.
Qed.

(** C3 at an input where it breaks: two listeners match, with matched
    substrings of length 1 and 3.  In either registration order the
    handler of the length-1 match is tried first, the longest last. *)
Theorem shortest_listener_match_tried_first :
  let short := Listener (re_search (js "a")) quiet in
  let long := Listener (re_search (js "abc")) quiet in
  map lm_0 (find_listeners (js "abc") 0 [short; long]) = [js "a"; js "abc"] /\
  snd (handleMessage InsertionSort [] [short; long] [] lobby (js "abc") noon)
    = [ListenerCalled 0 lobby (js "abc"); ListenerCalled 1 lobby (js "abc")] /\
  map lm_0 (find_listeners (js "abc") 0 [long; short]) = [js "abc"; js "a"] /\
  snd (handleMessage InsertionSort [] [long; short] [] lobby (js "abc") noon)
    = [ListenerCalled 1 lobby (js "abc"); ListenerCalled 0 lobby (js "abc")].
Proof. vm_compute. repeat split. Qed.

(** ** The text listeners work on *)

Lemma strip_prompt_first_match (pre post : list regexp) (p : regexp)
    (isCommand : bool) (message : list N) (mt : exec_result) :
  Forall (fun q : regexp => q message = None) pre ->
  p message = Some mt ->
  strip_prompt (pre ++ p :: post) isCommand message =
  (true, slice message (Z.of_nat (length (matched0 mt))) None).
Proof.
  intros Hpre Hp. induction Hpre as [|q pre Hq _ IH]; simpl.
  - rewrite Hp. reflexivity.
  - rewrite Hq. exact IH.
Qed.

Lemma strip_prompt_no_match (ps : list regexp) (isCommand : bool) (message : list N) :
  Forall (fun q : regexp => q message = None) ps ->
  strip_prompt ps isCommand message = (isCommand, message).
Proof.
  induction 1 as [|q ps Hq _ IH]; simpl; [reflexivity|]. rewrite Hq. exact IH.
Qed.

(** Every listener call comes from the listener phase: it is handed the
    working text, and its listener's trigger matched that text. *)
Lemma handleMessage_listener_calls
    (Array_sort : (lmatch -> lmatch -> Z) -> list lmatch -> list lmatch)
    (commands : list command) (listeners : list listener) (prompts : list regexp)
    (r : route) (message text : list N) (isCommand : bool) (w : world) :
  (forall f l, Permutation (Array_sort f l) l) ->
  strip_prompt prompts (is_null (room r)) message = (isCommand, text) ->
  forall i r' m,
    In (ListenerCalled i r' m)
       (snd (handleMessage Array_sort commands listeners prompts r message w)) ->
    m = text /\ r' = r /\
    exists l mt, listeners !! i = Some l /\ l_trigger l text = Some mt.
Proof.
  intros Hsort Hstrip i r' m. unfold handleMessage. rewrite Hstrip.
  assert (Hlisten : forall t w',
    In (ListenerCalled i r' m) t ->
    (exists res, listen Array_sort listeners r text w = (res, w', t)) ->
    m = text /\ r' = r /\ exists l mt, listeners !! i = Some l /\ l_trigger l text = Some mt).
  { intros t w' Hin [res Hl]. unfold listen in Hl.
    destruct (negb (squelched (room r) w)).
    - destruct (find_listeners text 0 listeners) as [|lm0 lms] eqn:Efind.
      + injection Hl as <- <- <-. destruct Hin.
      + assert (Ht : t = snd (run_listeners r text
               (Array_sort (fun a b => ToNumber (by_length a b)) (lm0 :: lms)) w))
          by (rewrite Hl; reflexivity).
        rewrite Ht in Hin. apply run_listeners_trace in Hin as (lm & Hlm & Heq).
        injection Heq as -> -> ->. repeat split.
        apply (Permutation_in _ (Hsort _ _)) in Hlm. rewrite <- Efind in Hlm.
        apply find_listeners_In in Hlm as (j & l & mt & Hj & Hmt & ->).
        exists l, mt. simpl. auto.
    - injection Hl as <- <- <-. destruct Hin. }
  assert (Hlog : forall k, ~ In (ListenerCalled i r' m) (snd (find_commands w r text k commands))).
  { intros k Hin. apply find_commands_log in Hin. discriminate. }
  destruct isCommand.
  - specialize (Hlog 0%nat).
    destruct (find_commands w r text 0 commands) as [[|cm cms] log]; simpl in Hlog.
    + destruct (listen Array_sort listeners r text w) as [[[[|]|er] w'] t] eqn:El;
        cbn [fst snd]; rewrite ?in_app_iff; intros Hin.
      * destruct Hin as [Hin|Hin]; [contradiction|]. eapply Hlisten; eauto.
      * destruct Hin as [Hin|[Hin|Hin]]; [contradiction | eapply Hlisten; eauto |].
        unfold fallback in Hin. destruct (squelched (room r) w');
          simpl in Hin; destruct Hin as [Hin|[]]; discriminate.
      * destruct Hin as [Hin|Hin]; [contradiction|]. eapply Hlisten; eauto.
    + pose proof (call_command_trace r text (pick (cm :: cms)) w (ListenerCalled i r' m)) as Hc.
      destruct (call_command r text (pick (cm :: cms)) w) as [[res w'] t].
      cbn [fst snd] in *. rewrite in_app_iff. intros [Hin|Hin]; [contradiction|].
      destruct (Hc Hin) as (? & ? & ?). discriminate.
  - destruct (listen Array_sort listeners r text w) as [[[[|]|er] w'] t] eqn:El;
      cbn [fst snd app fallback]; rewrite ?app_nil_r; intros Hin; eapply Hlisten; eauto.
Qed.

(** C2, as the code has it: when a prompt matches, the text the listener
    triggers are tested against and the listener handlers receive is the
    message with the prompt sliced off, the same text the commands are
    matched against. *)
Theorem listeners_work_on_stripped_text
    (Array_sort : (lmatch -> lmatch -> Z) -> list lmatch -> list lmatch)
    (commands : list command) (listeners : list listener)
    (pre post : list regexp) (p : regexp) (mt : exec_result)
    (r : route) (message : list N) (w : world) :
  (forall f l, Permutation (Array_sort f l) l) ->
  Forall (fun q : regexp => q message = None) pre ->
  p message = Some mt ->
  let text := slice message (Z.of_nat (length (matched0 mt))) None in
  forall i r' m,
    In (ListenerCalled i r' m)
       (snd (handleMessage Array_sort commands listeners (pre ++ p :: post) r message w)) ->
    m = text /\ r' = r /\
    exists l mt', listeners !! i = Some l /\ l_trigger l text = Some mt'.
Proof.
  intros Hsort Hpre Hp text.
  apply (handleMessage_listener_calls Array_sort commands listeners (pre ++ p :: post)
           r message text true w Hsort).
  apply strip_prompt_first_match; assumption.
Qed.

Lemma listeners_work_on_stripped_text_witness :
  let listeners := [Listener (re_search (js "hi")) done_] in
  let trace := snd (handleMessage InsertionSort [] listeners ([] ++ prompt (js "bot") :: [])
                      lobby (js "bot: hi") noon) in
  In (ListenerCalled 0 lobby (js "hi")) trace /\
  js "hi" = slice (js "bot: hi") 5 None.
Proof.
  assert (Hin : In (ListenerCalled 0 lobby (js "hi"))
                  (snd (handleMessage InsertionSort [] [Listener (re_search (js "hi")) done_]
                          ([] ++ prompt (js "bot") :: []) lobby (js "bot: hi") noon)))
    by (left; reflexivity).
  split; [exact Hin|].
  exact (proj1 (listeners_work_on_stripped_text InsertionSort []
                  [Listener (re_search (js "hi")) done_] [] [] (prompt (js "bot"))
                  (Match 0 (js "bot: ")) lobby (js "bot: hi") noon
                  (@InsertionSort_Permutation lmatch) (List.Forall_nil _) eq_refl
                  0%nat lobby (js "hi") Hin)).
Defined.

(** C2 as stated fails: the listener is handed the text without the
    prompt, not the original message, and a trigger that matches only
    inside the prompt finds nothing. *)
Lemma listener_not_given_original_text :
  let original := js "bot: hi" in
  prompt (js "bot") original = Some (Match 0 (js "bot: ")) /\
  ~ listeners_receive original
      (snd (handleMessage InsertionSort [] [Listener (re_search (js "hi")) done_]
              [prompt (js "bot")] lobby original noon)) /\
  snd (handleMessage InsertionSort [] [Listener (re_search (js "bot")) done_]
         [prompt (js "bot")] lobby original noon) = [Send lobby command_not_found].
Proof.
  split; [reflexivity|]. split; [|reflexivity].
  intros H. specialize (H 0%nat lobby (js "hi")).
  assert (Hin : In (ListenerCalled 0 lobby (js "hi"))
                  (snd (handleMessage InsertionSort [] [Listener (re_search (js "hi")) done_]
                          [prompt (js "bot")] lobby (js "bot: hi") noon)))
    by (left; reflexivity).
  apply H in Hin. vm_compute in Hin. discriminate.
Qed.

(** ** The commands that get called *)

(** Whatever command handler is called belongs to a candidate: its trigger
    matched the working text at offset 0, and it is core or the room is
    not squelched; it gets the rest of the text, split. *)
Lemma handleMessage_command_calls
    (Array_sort : (lmatch -> lmatch -> Z) -> list lmatch -> list lmatch)
    (commands : list command) (listeners : list listener) (prompts : list regexp)
    (r : route) (message text : list N) (isCommand : bool) (w : world) :
  strip_prompt prompts (is_null (room r)) message = (isCommand, text) ->
  forall i r' args,
    In (CommandCalled i r' args)
       (snd (handleMessage Array_sort commands listeners prompts r message w)) ->
    isCommand = true /\ r' = r /\
    exists c mt,
      commands !! i = Some c /\ c_trigger c text = Some mt /\ index mt = 0%nat /\
      (c_core c = true \/ squelched (room r) w = false) /\
      args = Tokenizer.splitArgs (slice text (Z.of_nat (length (matched0 mt))) None).
Proof.
  intros Hstrip i r' args. unfold handleMessage. rewrite Hstrip.
  assert (Hlisten : forall t, In (CommandCalled i r' args) t ->
            t <> snd (listen Array_sort listeners r text w)).
  { intros t Hin ->. unfold listen in Hin.
    destruct (negb (squelched (room r) w)); [|destruct Hin].
    destruct (find_listeners text 0 listeners); [destruct Hin|].
    apply run_listeners_trace in Hin as (lm & _ & Heq). discriminate. }
  assert (Hfb : forall b w', ~ In (CommandCalled i r' args) (fallback r b w')).
  { intros b w' Hin. unfold fallback in Hin.
    destruct b; [|destruct Hin].
    destruct (squelched (room r) w'); destruct Hin as [Hin|[]]; discriminate. }
  assert (Hnone : forall log, ~ In (CommandCalled i r' args) log ->
    ~ In (CommandCalled i r' args)
        (snd match listen Array_sort listeners r text w with
             | (Returned true, w', t) => (Returned tt, w', log ++ t)
             | (Returned false, w', t) => (Returned tt, w', log ++ t ++ fallback r isCommand w')
             | (Threw er, w', t) => (Threw er, w', log ++ t)
             end)).
  { intros log Hlog. specialize (fun t H => Hlisten t H).
    destruct (listen Array_sort listeners r text w) as [[[[|]|er] w'] t];
      cbn [fst snd] in *; rewrite ?in_app_iff; intros Hin;
      repeat (destruct Hin as [Hin|Hin]); try contradiction;
      try (apply (Hlisten t Hin); reflexivity).
    exact (Hfb _ _ Hin). }
  destruct isCommand.
  - pose proof (find_commands_In w r text commands 0) as Hcand.
    assert (Hlog : ~ In (CommandCalled i r' args) (snd (find_commands w r text 0 commands))).
    { intros Hin. apply find_commands_log in Hin. discriminate. }
    destruct (find_commands w r text 0 commands) as [[|cm cms] log]; cbn [fst snd] in *.
    + intros Hin. exfalso. exact (Hnone log Hlog Hin).
    + unfold call_command.
      destruct (pick_In (cm :: cms)) as [Hpick | Hpick].
      * rewrite Hpick. simpl. rewrite app_nil_r. contradiction.
      * apply Hcand in Hpick as (j & c & mt & Hj & Hmt & Hidx & Hgate & ->). simpl.
        destruct (c_func c r _ w) as [[v|er] w']; cbn [fst snd]; rewrite in_app_iff;
          (intros [Hin | [Hin | []]]; [contradiction|]);
          injection Hin as <- <- <-; (split; [reflexivity|]); (split; [reflexivity|]);
          exists c, mt; auto.
  - intros Hin. exfalso. apply (Hnone [] (fun H => H) Hin).
Qed.

(** While the room is squelched only core commands are called. *)
Lemma squelched_only_core_called
    (Array_sort : (lmatch -> lmatch -> Z) -> list lmatch -> list lmatch)
    (commands : list command) (listeners : list listener) (prompts : list regexp)
    (r : route) (message : list N) (w : world) (i : nat) (r' : route)
    (args : list (list N)) :
  squelched (room r) w = true ->
  In (CommandCalled i r' args)
     (snd (handleMessage Array_sort commands listeners prompts r message w)) ->
  exists c, commands !! i = Some c /\ c_core c = true.
Proof.
  intros Hsq Hin.
  destruct (strip_prompt prompts (is_null (room r)) message) as [isCommand text] eqn:Hstrip.
  destruct (handleMessage_command_calls _ _ _ _ _ _ _ _ _ Hstrip _ _ _ Hin)
    as (_ & _ & c & mt & Hc & _ & _ & [Hcore | Hnot] & _).
  - exists c. auto.
  - congruence.
Qed.

(** ** The domain wrapper *)

(** A handler that throws ends the dispatch with its error. *)
Lemma call_command_throws (r : route) (text : list N) (matched : cmatch) (w w' : world)
    (i : nat) (func : handler (list (list N))) (er : error) :
  cm_func matched = Some (i, func) ->
  func r (Tokenizer.splitArgs (slice text (Z.of_nat (length (cm_0 matched))) None)) w
    = (Threw er, w') ->
  call_command r text matched w =
  (Threw er, w',
   [CommandCalled i r
      (Tokenizer.splitArgs (slice text (Z.of_nat (length (cm_0 matched))) None))]).
Proof. intros Hf Hthrow. unfold call_command. rewrite Hf, Hthrow. reflexivity. Qed.

Lemma run_listeners_throws (r : route) (text : list N) (pre post : list lmatch)
    (m : lmatch) (w w1 w2 : world) (er : error) :
  all_falsy r text pre w w1 ->
  snd (lm_func m) r text w1 = (Threw er, w2) ->
  run_listeners r text (pre ++ m :: post) w =
  (Threw er, w2, map (listener_call r text) (pre ++ [m])).
Proof.
  intros Hpre Hm. rewrite (run_listeners_app r text pre (m :: post) w w1 Hpre).
  simpl. rewrite Hm, map_app. reflexivity.
Qed.

(** A dispatch that ends in an error has sent nothing. *)
Lemma handleMessage_threw_no_reply
    (Array_sort : (lmatch -> lmatch -> Z) -> list lmatch -> list lmatch)
    (commands : list command) (listeners : list listener) (prompts : list regexp)
    (r : route) (message : list N) (w w1 : world) (er : error) (t : list event) :
  handleMessage Array_sort commands listeners prompts r message w = (Threw er, w1, t) ->
  no_reply t.
Proof.
  unfold handleMessage.
  destruct (strip_prompt prompts (is_null (room r)) message) as [isCommand text].
  assert (Hcases : forall matches log, no_reply log ->
    match matches with
    | [] =>
        match listen Array_sort listeners r text w with
        | (Returned true, w', t0) => (Returned tt, w', log ++ t0)
        | (Returned false, w', t0) => (Returned tt, w', log ++ t0 ++ fallback r isCommand w')
        | (Threw er0, w', t0) => (Threw er0, w', log ++ t0)
        end
    | _ :: _ =>
        let '(res, w', t0) := call_command r text (pick matches) w in (res, w', log ++ t0)
    end = (Threw er, w1, t) -> no_reply t).
  { intros matches log Hlog. destruct matches as [|cm cms].
    - pose proof (listen_no_reply Array_sort listeners r text w) as Hl.
      destruct (listen Array_sort listeners r text w) as [[[[|]|er0] w'] t0];
        try discriminate.
      intros H. injection H as <- <- <-. apply no_reply_app; assumption.
    - pose proof (call_command_no_reply r text (pick (cm :: cms)) w) as Hc.
      destruct (call_command r text (pick (cm :: cms)) w) as [[res w'] t0].
      intros H. injection H as -> <- <-. apply no_reply_app; assumption. }
  destruct isCommand.
  - pose proof (find_commands_no_reply w r text commands 0) as Hlog.
    destruct (find_commands w r text 0 commands) as [matches log]. apply Hcases, Hlog.
  - apply (Hcases [] []). constructor.
Qed.

Lemma on_error_replies_once (r : route) (message : list N) (er : error) :
  er <> Nullish ->
  on_error r message er = (Returned tt, [LogUnhandled message er; Send r generic_error]).
Proof. destruct er; [reflexivity | reflexivity | congruence]. Qed.

(** C4 at an input where it breaks: the matched command handler throws
    [undefined].  The error leaves the dispatch after the call; the
    domain's listener, handed that value, raises a TypeError at [er.stack]
    before anything is logged or sent, so the run holds no log line and no
    generic reply (the claim has both). *)
Theorem error_listener_raises_on_thrown_undefined :
  let commands := [Command (re_prefix (js "boom")) false throws_undefined] in
  handleMessage InsertionSort commands [] [] private (js "boom") noon
    = (Threw Nullish, noon, [CommandCalled 0 private [js ""]]) /\
  on_error private (js "boom") Nullish = (Threw TypeError, []).
Proof. vm_compute. repeat split. Qed.

(** With an error object the listener logs it with the message and sends
    the generic reply. *)
Example command_error_logged_and_answered :
  IntentService_handleMessage InsertionSort
    [Command (re_prefix (js "boom")) false (faulty 1)] [] [] private (js "boom now") noon
  = (noon, [CommandCalled 0 private [js "now"];
            LogUnhandled (js "boom now") (HandlerError 1); Send private generic_error]).
Proof. reflexivity. Qed.

(** The same with a listener that throws after one that returned a falsy
    value. *)
Example listener_error_intercepted :
  IntentService_handleMessage InsertionSort []
    [Listener (re_search (js "o")) quiet; Listener (re_search (js "oo")) (faulty 2);
     Listener (re_search (js "boo")) done_] [] lobby (js "boo") noon
  = (noon, [ListenerCalled 0 lobby (js "boo"); ListenerCalled 1 lobby (js "boo");
            LogUnhandled (js "boo") (HandlerError 2); Send lobby generic_error]).
Proof. reflexivity. Qed.

(** The fallback reply follows the squelch state found after the listeners
    ran: here a listener mutes the room and reports nothing. *)
Example fallback_after_muting_listener :
  snd (handleMessage InsertionSort [] [Listener (re_search (js "hush")) muting]
         [prompt (js "bot")] lobby (js "bot: hush") noon)
  = [ListenerCalled 0 lobby (js "hush");
     DirectSend lobby command_but_silenced (Some (js "lobby"))].
Proof. vm_compute. reflexivity. Qed.

(** In a squelched room the listeners are skipped and an addressed message
    no core command matches gets the silenced reply. *)
Example fallback_when_squelched :
  snd (handleMessage InsertionSort [Command (re_prefix (js "play")) false quiet]
         [Listener (re_search (js "play")) done_]
         [prompt (js "bot")] lobby (js "bot: play")
         (squelch (room lobby) None noon))
  = [LogNotProcessing; DirectSend lobby command_but_silenced (Some (js "lobby"))].
Proof. vm_compute. reflexivity. Qed.

(** * Further properties *)

(** ** Strings *)

Lemma split_nonempty (sep : N) (s : list N) : split sep s <> [].
Proof.
  induction s as [|c s IH]; simpl; [discriminate|].
  destruct (c =? sep)%N; [discriminate|]. destruct (split sep s); discriminate.
Qed.

Lemma join_split (sep : N) (s : list N) : join sep (split sep s) = s.
Proof.
  induction s as [|c s IH]; simpl; [reflexivity|].
  pose proof (split_nonempty sep s) as Hne.
  destruct (c =? sep)%N eqn:E.
  - apply N.eqb_eq in E. subst c.
    destruct (split sep s) as [|tok rest]; [congruence|].
    change (join sep ([] :: tok :: rest)) with ([] ++ sep :: join sep (tok :: rest)).
    rewrite IH. reflexivity.
  - destruct (split sep s) as [|tok rest]; [congruence|].
    rewrite <- IH. destruct rest; reflexivity.
Qed.

Lemma split_free (sep : N) (t : list N) : free_of sep t = true -> split sep t = [t].
Proof.
  induction t as [|c t IH]; simpl; [reflexivity|]. intros H.
  apply andb_prop in H as [Hc Ht]. apply negb_true_iff in Hc. rewrite Hc, (IH Ht). reflexivity.
Qed.

Lemma split_free_app (sep : N) (t x : list N) :
  free_of sep t = true -> split sep (t ++ sep :: x) = t :: split sep x.
Proof.
  induction t as [|c t IH]; simpl; intros H.
  - rewrite N.eqb_refl. reflexivity.
  - apply andb_prop in H as [Hc Ht]. apply negb_true_iff in Hc. rewrite Hc, (IH Ht). reflexivity.
Qed.

Lemma join_cons2 (sep : N) (t t' : list N) (r : list (list N)) :
  join sep (t :: t' :: r) = t ++ sep :: join sep (t' :: r).
Proof. reflexivity. Qed.

Lemma split_join (sep : N) (toks : list (list N)) :
  toks <> [] -> Forall (fun t => free_of sep t = true) toks ->
  split sep (join sep toks) = toks.
Proof.
  intros Hne Hall. induction Hall as [|t r Ht Hr IH]; [congruence|].
  destruct r as [|t' r].
  - simpl. apply split_free, Ht.
  - rewrite join_cons2, (split_free_app _ _ _ Ht), IH; [reflexivity | discriminate].
Qed.

Lemma join_app (sep : N) (a b : list (list N)) :
  a <> [] -> b <> [] -> join sep (a ++ b) = join sep a ++ sep :: join sep b.
Proof.
  intros Ha Hb. induction a as [|t a IH]; [congruence|].
  destruct a as [|t' a].
  - destruct b; [congruence|]. reflexivity.
  - change ((t :: t' :: a) ++ b) with (t :: (t' :: a) ++ b).
    change ((t' :: a) ++ b) with (t' :: a ++ b) at 1.
    rewrite join_cons2. change (t' :: a ++ b) with ((t' :: a) ++ b).
    rewrite IH by discriminate. rewrite join_cons2, <- app_assoc. reflexivity.
Qed.

Lemma forallb_join (P : N -> bool) (sep : N) (toks : list (list N)) :
  P sep = true -> Forall (fun t => forallb P t = true) toks ->
  forallb P (join sep toks) = true.
Proof.
  intros Hsep Hall. induction Hall as [|t r Ht Hr IH]; [reflexivity|].
  destruct r as [|t' r]; [exact Ht|].
  rewrite join_cons2, forallb_app.
  change (forallb P (sep :: join sep (t' :: r)))
    with (P sep && forallb P (join sep (t' :: r))).
  rewrite Ht, Hsep, IH. reflexivity.
Qed.

Lemma trim_start_id (c : N) (s : list N) :
  is_white_space c = false -> trim_start (c :: s) = c :: s.
Proof. intros H. simpl. rewrite H. reflexivity. Qed.

Lemma trim_end_id (s : list N) (d : N) :
  is_white_space d = false -> trim_end (s ++ [d]) = s ++ [d].
Proof.
  intros H. unfold trim_end. rewrite rev_app_distr. simpl. rewrite H.
  change (d :: rev s) with ([d] ++ rev s). rewrite rev_app_distr, rev_involutive. reflexivity.
Qed.

Lemma forallb_trim_start (P : N -> bool) (s : list N) :
  forallb P s = true -> forallb P (trim_start s) = true.
Proof.
  induction s as [|c s IH]; simpl; [auto|]. intros H.
  destruct (is_white_space c); [|exact H].
  apply andb_prop in H as [_ H]. auto.
Qed.

Lemma forallb_rev (P : N -> bool) (s : list N) : forallb P (rev s) = forallb P s.
Proof.
  induction s as [|c s IH]; simpl; [reflexivity|].
  rewrite forallb_app, IH. simpl. rewrite andb_true_r. apply andb_comm.
Qed.

Lemma forallb_trim (P : N -> bool) (s : list N) :
  forallb P s = true -> forallb P (trim s) = true.
Proof.
  intros H. unfold trim, trim_end. rewrite forallb_rev.
  apply forallb_trim_start. rewrite forallb_rev. apply forallb_trim_start, H.
Qed.

Lemma forallb_split (P : N -> bool) (sep : N) (s : list N) :
  forallb P s = true -> Forall (fun t => forallb P t = true) (split sep s).
Proof.
  induction s as [|c s IH]; simpl; intros H; [repeat constructor|].
  apply andb_prop in H as [Hc Hs]. specialize (IH Hs).
  destruct (c =? sep)%N; [constructor; [reflexivity | exact IH]|].
  destruct (split sep s) as [|tok rest]; [repeat constructor; simpl; rewrite Hc; reflexivity|].
  inversion IH; subst. constructor; [simpl; rewrite Hc; assumption | assumption].
Qed.

(** ** More on the tokenizer *)

Lemma each_progress (v : Tokenizer.vars) (token : list N) :
  Tokenizer.args (Tokenizer.each v token) <> [] \/
  Tokenizer.quotedstring (Tokenizer.each v token) <> [].
Proof.
  unfold Tokenizer.each.
  destruct (Tokenizer.quote v) as [q|].
  - destruct (Tokenizer.same_unit (last_unit token) q); simpl.
    + left. destruct (Tokenizer.args v); discriminate.
    + right. destruct (Tokenizer.quotedstring v); discriminate.
  - destruct (first_unit token) as [q|]; simpl.
    + destruct ((q =? ch_dquote) || (q =? ch_squote))%N.
      * destruct (Tokenizer.same_unit (last_unit token) q); simpl.
        -- left. destruct (Tokenizer.args v); discriminate.
        -- right. discriminate.
      * simpl. left. destruct (Tokenizer.args v); discriminate.
    + left. destruct (Tokenizer.args v); discriminate.
Qed.

Lemma fold_each_progress (toks : list (list N)) :
  toks <> [] -> forall v,
  Tokenizer.args (fold_left Tokenizer.each toks v) <> [] \/
  Tokenizer.quotedstring (fold_left Tokenizer.each toks v) <> [].
Proof.
  induction toks as [|t toks IH]; [congruence|]. intros _ v.
  destruct toks as [|t' toks].
  - simpl. apply each_progress.
  - change (fold_left Tokenizer.each (t :: t' :: toks) v)
      with (fold_left Tokenizer.each (t' :: toks) (Tokenizer.each v t)).
    apply IH. discriminate.
Qed.

(** The splitter never hands a handler an empty argument list: whatever
    the text, there is at least one argument. *)
Theorem splitArgs_never_empty (message : list N) :
  Tokenizer.splitArgs message <> [].
Proof.
  unfold Tokenizer.splitArgs.
  destruct (fold_each_progress
              (split ch_space (replace_double_quotes (replace_single_quotes (trim message))))
              (split_nonempty _ _) (Tokenizer.Vars [] None [])) as [H | H].
  - destruct (Tokenizer.quotedstring _); [exact H|].
    destruct (Tokenizer.args _); discriminate.
  - destruct (Tokenizer.quotedstring _); [congruence|].
    destruct (Tokenizer.args _); discriminate.
Qed.

Lemma no_quote_unit (c : N) :
  is_quote c = false ->
  ((c =? ch_dquote) || (c =? ch_squote))%N = false /\
  ((c =? 8216) || (c =? 8217))%N = false /\
  ((c =? 8220) || (c =? 8221))%N = false.
Proof.
  unfold is_quote, ch_dquote, ch_squote.
  destruct (c =? 34)%N, (c =? 39)%N, (c =? 8216)%N, (c =? 8217)%N,
           (c =? 8220)%N, (c =? 8221)%N; simpl; intros H; try discriminate; auto.
Qed.

Lemma normalize_no_quote (s : list N) :
  forallb (fun c => negb (is_quote c)) s = true -> normalize s = s.
Proof.
  unfold normalize, replace_double_quotes, replace_single_quotes.
  induction s as [|c s IH]; simpl; [reflexivity|]. intros H.
  apply andb_prop in H as [Hc Hs]. apply negb_true_iff in Hc.
  destruct (no_quote_unit c Hc) as (_ & H1 & H2).
  rewrite H1, H2. f_equal. apply IH, Hs.
Qed.

Lemma first_unit_no_quote (t : list N) :
  forallb (fun c => negb (is_quote c)) t = true ->
  Tokenizer.is_quote_unit (first_unit t) = false.
Proof.
  destruct t as [|c t]; simpl; [reflexivity|]. intros H.
  apply andb_prop in H as [Hc _]. apply negb_true_iff in Hc.
  apply (no_quote_unit c Hc).
Qed.

(** Outside a quoted span every token that does not open one becomes an
    argument. *)
Lemma fold_each_plain (toks : list (list N)) :
  Forall (fun t => Tokenizer.is_quote_unit (first_unit t) = false) toks ->
  forall a qs,
  fold_left Tokenizer.each toks (Tokenizer.Vars a None qs) = Tokenizer.Vars (a ++ toks) None qs.
Proof.
  induction 1 as [|t toks Ht _ IH]; intros a qs; simpl.
  - rewrite app_nil_r. reflexivity.
  - unfold Tokenizer.each at 2. simpl. rewrite Ht, IH, <- app_assoc. reflexivity.
Qed.

(** Without any quote mark in the text the arguments are the
    space-separated pieces of the trimmed text, and joining them with
    spaces gives the trimmed text back. *)
Theorem splitArgs_without_quotes (message : list N) :
  forallb (fun c => negb (is_quote c)) message = true ->
  Tokenizer.splitArgs message = split ch_space (trim message) /\
  join ch_space (Tokenizer.splitArgs message) = trim message.
Proof.
  intros H.
  assert (Heq : Tokenizer.splitArgs message = split ch_space (trim message)).
  { unfold Tokenizer.splitArgs. fold (normalize (trim message)).
    pose proof (forallb_trim _ _ H) as Ht.
    rewrite (normalize_no_quote _ Ht), fold_each_plain; [reflexivity|].
    eapply List.Forall_impl; [|apply forallb_split, Ht].
    intros t. apply first_unit_no_quote. }
  split; [exact Heq|]. rewrite Heq. apply join_split.
Qed.

Lemma splitArgs_without_quotes_witness :
  forallb (fun c => negb (is_quote c)) (js " roll  2d6 ") = true /\
  Tokenizer.splitArgs (js " roll  2d6 ") = [js "roll"; js ""; js "2d6"].
Proof.
  assert (H : forallb (fun c => negb (is_quote c)) (js " roll  2d6 ") = true) by reflexivity.
  split; [exact H|].
  exact (proj1 (splitArgs_without_quotes (js " roll  2d6 ") H)).
Defined.

Lemma trim_start_app_blank (a s : list N) :
  forallb is_white_space a = true -> trim_start (a ++ s) = trim_start s.
Proof.
  induction a as [|c a IH]; simpl; [reflexivity|]. intros H.
  apply andb_prop in H as [Hc Ha]. rewrite Hc. auto.
Qed.

Lemma trim_start_app_r (s x : list N) :
  trim_start s <> [] -> trim_start (s ++ x) = trim_start s ++ x.
Proof.
  induction s as [|c s IH]; simpl; [congruence|].
  destruct (is_white_space c); [exact IH | reflexivity].
Qed.

Lemma trim_start_nil (s : list N) :
  trim_start s = [] -> forallb is_white_space s = true.
Proof.
  induction s as [|c s IH]; simpl; [reflexivity|].
  destruct (is_white_space c); [exact IH | discriminate].
Qed.

Lemma trim_end_app_blank (s b : list N) :
  forallb is_white_space b = true -> trim_end (s ++ b) = trim_end s.
Proof.
  intros H. unfold trim_end. rewrite rev_app_distr, trim_start_app_blank; [reflexivity|].
  rewrite forallb_rev. exact H.
Qed.

Lemma trim_app_blank (a s b : list N) :
  forallb is_white_space a = true -> forallb is_white_space b = true ->
  trim (a ++ s ++ b) = trim s.
Proof.
  intros Ha Hb. unfold trim. rewrite (trim_start_app_blank _ _ Ha).
  destruct (trim_start s) as [|c r] eqn:Es.
  - apply trim_start_nil in Es.
    rewrite trim_start_blank; [reflexivity|]. rewrite forallb_app, Es, Hb. reflexivity.
  - rewrite trim_start_app_r by (rewrite Es; discriminate).
    rewrite Es. apply trim_end_app_blank, Hb.
Qed.

(** White space around the text makes no difference to the arguments. *)
Theorem splitArgs_ignores_outer_blanks (a message b : list N) :
  forallb is_white_space a = true -> forallb is_white_space b = true ->
  Tokenizer.splitArgs (a ++ message ++ b) = Tokenizer.splitArgs message.
Proof.
  intros Ha Hb. unfold Tokenizer.splitArgs. rewrite (trim_app_blank _ _ _ Ha Hb). reflexivity.
Qed.

Lemma splitArgs_ignores_outer_blanks_witness :
  Tokenizer.splitArgs (js "  " ++ js "say 'hi there'" ++ [9%N; 10%N])
  = Tokenizer.splitArgs (js "say 'hi there'").
Proof.
  exact (splitArgs_ignores_outer_blanks (js "  ") (js "say 'hi there'") [9%N; 10%N]
           eq_refl eq_refl).
Defined.

Lemma normalize_map (s : list N) : normalize s = map normal_unit s.
Proof.
  unfold normalize, replace_double_quotes, replace_single_quotes.
  rewrite map_map. reflexivity.
Qed.

Lemma normal_unit_cases (c : N) :
  (((c =? 8216) || (c =? 8217))%N = true /\ normal_unit c = ch_squote) \/
  (((c =? 8220) || (c =? 8221))%N = true /\ normal_unit c = ch_dquote) \/
  normal_unit c = c.
Proof.
  unfold normal_unit.
  destruct ((c =? 8216) || (c =? 8217))%N eqn:E1; [left; split; reflexivity|].
  destruct ((c =? 8220) || (c =? 8221))%N eqn:E2; [right; left; split; reflexivity|].
  right. right. reflexivity.
Qed.

Lemma curly_not_white (c : N) :
  ((c =? 8216) || (c =? 8217) || (c =? 8220) || (c =? 8221))%N = true ->
  is_white_space c = false.
Proof.
  intros H. repeat (apply orb_prop in H as [H | H]);
    apply N.eqb_eq in H; subst c; reflexivity.
Qed.

Lemma normal_unit_white (c : N) : is_white_space (normal_unit c) = is_white_space c.
Proof.
  destruct (normal_unit_cases c) as [[H ->] | [[H ->] | ->]]; [| |reflexivity].
  - symmetry. rewrite curly_not_white; [reflexivity|].
    apply orb_prop in H as [H | H]; rewrite H; rewrite ?orb_true_r; reflexivity.
  - symmetry. rewrite curly_not_white; [reflexivity|].
    apply orb_prop in H as [H | H]; rewrite H; rewrite ?orb_true_r; reflexivity.
Qed.

Lemma normal_unit_idem (c : N) : normal_unit (normal_unit c) = normal_unit c.
Proof.
  destruct (normal_unit_cases c) as [[_ H] | [[_ H] | H]]; rewrite H;
    [reflexivity | reflexivity | exact H].
Qed.

Lemma trim_start_map (s : list N) :
  trim_start (map normal_unit s) = map normal_unit (trim_start s).
Proof.
  induction s as [|c s IH]; simpl; [reflexivity|].
  rewrite normal_unit_white. destruct (is_white_space c); [exact IH | reflexivity].
Qed.

Lemma trim_normalize (s : list N) : trim (normalize s) = normalize (trim s).
Proof.
  rewrite !normalize_map. unfold trim, trim_end.
  rewrite trim_start_map, <- map_rev, trim_start_map, map_rev. reflexivity.
Qed.

(** Typographic quotes count as straight ones: replacing them in the text
    beforehand gives the same arguments. *)
Theorem splitArgs_typographic_quotes (message : list N) :
  Tokenizer.splitArgs (normalize message) = Tokenizer.splitArgs message.
Proof.
  unfold Tokenizer.splitArgs.
  fold (normalize (trim (normalize message))). fold (normalize (trim message)).
  rewrite trim_normalize.
  assert (H : normalize (normalize (trim message)) = normalize (trim message)).
  { rewrite !normalize_map, map_map. apply map_ext. intros c. apply normal_unit_idem. }
  rewrite H. reflexivity.
Qed.

Lemma slice_tail (s : list N) (n : nat) :
  (n <= length s)%nat -> slice s (Z.of_nat n) None = drop n s.
Proof.
  intros Hn. unfold slice, slice_pos.
  assert (E : (Z.of_nat n <? 0) = false) by (apply Z.ltb_ge; lia). rewrite E.
  rewrite Z.min_l by lia. rewrite Nat2Z.id.
  apply take_ge. rewrite length_drop. lia.
Qed.

Lemma slice_after_prefix (p rest : list N) :
  slice (p ++ rest) (Z.of_nat (length p)) None = rest.
Proof.
  rewrite slice_tail by (rewrite length_app; lia). apply drop_app_length.
Qed.

Lemma slice_drop_first (q : N) (w : list N) : slice (q :: w) 1 None = w.
Proof. exact (slice_tail (q :: w) 1 ltac:(simpl; lia)). Qed.

Lemma slice_drop_last (w : list N) (q : N) : slice (w ++ [q]) 0 (Some (-1)) = w.
Proof.
  unfold slice, slice_pos. change (0 <? 0) with false. change (-1 <? 0) with true. cbv iota.
  rewrite length_app. simpl length.
  rewrite Z.min_l by lia. rewrite Z.max_l by lia. simpl drop.
  match goal with |- take ?n _ = _ => replace n with (length w) by lia end.
  apply take_app_length.
Qed.

Lemma slice_drop_both (q q' : N) (w : list N) :
  slice (q :: w ++ [q']) 1 (Some (-1)) = w.
Proof.
  unfold slice, slice_pos. change (1 <? 0) with false. change (-1 <? 0) with true. cbv iota.
  simpl length. rewrite length_app. simpl length.
  rewrite Z.min_l by lia. rewrite Z.max_l by lia.
  change (Z.to_nat 1) with 1%nat. simpl drop.
  match goal with |- take ?n _ = _ => replace n with (length w) by lia end.
  apply take_app_length.
Qed.

Lemma forallb_weaken (P Q : N -> bool) (s : list N) :
  (forall c, P c = true -> Q c = true) -> forallb P s = true -> forallb Q s = true.
Proof.
  intros HPQ. induction s as [|c s IH]; simpl; [auto|]. intros H.
  apply andb_prop in H as [Hc Hs]. rewrite (HPQ c Hc), (IH Hs). reflexivity.
Qed.

Lemma word_units (w : list N) :
  is_word w = true -> w <> [] /\ forallb plain_unit w = true.
Proof. destruct w; [discriminate|]. intros H. split; [discriminate | exact H]. Qed.

Lemma plain_unit_spec (c : N) :
  plain_unit c = true -> is_white_space c = false /\ is_quote c = false.
Proof.
  unfold plain_unit. intros H. apply andb_prop in H as [H1 H2].
  apply negb_true_iff in H1, H2. auto.
Qed.

Lemma word_first_unit (w : list N) :
  is_word w = true -> Tokenizer.is_quote_unit (first_unit w) = false.
Proof.
  intros H. apply word_units in H as [_ H]. apply first_unit_no_quote.
  eapply forallb_weaken; [|exact H].
  intros c Hc. apply plain_unit_spec in Hc as [_ Hc]. rewrite Hc. reflexivity.
Qed.

Lemma straight_is_quote (q : N) : is_straight_quote q = true -> is_quote q = true.
Proof.
  unfold is_straight_quote, is_quote, ch_dquote, ch_squote. intros H.
  apply orb_prop in H as [H | H]; rewrite H; rewrite ?orb_true_r; reflexivity.
Qed.

Lemma word_last_unit (q : N) (w : list N) :
  is_straight_quote q = true -> is_word w = true ->
  Tokenizer.same_unit (last_unit w) q = false.
Proof.
  intros Hq Hw. apply word_units in Hw as [Hne Hw].
  destruct (exists_last Hne) as (l & d & ->).
  unfold last_unit. rewrite last_snoc. simpl.
  rewrite forallb_app in Hw. apply andb_prop in Hw as [_ Hd]. simpl in Hd.
  rewrite andb_true_r in Hd. apply plain_unit_spec in Hd as [_ Hd].
  destruct (d =? q)%N eqn:E; [|reflexivity].
  apply N.eqb_eq in E. subst d. rewrite (straight_is_quote q Hq) in Hd. discriminate.
Qed.

Lemma each_open (q : N) (w : list N) (a qs : list (list N)) :
  is_straight_quote q = true -> is_word w = true ->
  Tokenizer.each (Tokenizer.Vars a None qs) (q :: w) = Tokenizer.Vars a (Some q) [w].
Proof.
  intros Hq Hw. unfold Tokenizer.each. simpl Tokenizer.quote. cbv iota.
  change (first_unit (q :: w)) with (Some q).
  change (Tokenizer.is_quote_unit (Some q)) with (is_straight_quote q). rewrite Hq.
  assert (Hl : last_unit (q :: w) = last_unit w).
  { destruct w; [discriminate | reflexivity]. }
  rewrite Hl, (word_last_unit q w Hq Hw), slice_drop_first. reflexivity.
Qed.

Lemma each_single (q : N) (w : list N) (a qs : list (list N)) :
  is_straight_quote q = true ->
  Tokenizer.each (Tokenizer.Vars a None qs) (q :: w ++ [q]) = Tokenizer.Vars (a ++ [w]) None qs.
Proof.
  intros Hq. unfold Tokenizer.each. simpl Tokenizer.quote. cbv iota.
  change (first_unit (q :: w ++ [q])) with (Some q).
  change (Tokenizer.is_quote_unit (Some q)) with (is_straight_quote q). rewrite Hq.
  assert (Hl : last_unit (q :: w ++ [q]) = Some q).
  { unfold last_unit. change (q :: w ++ [q]) with ((q :: w) ++ [q]). apply last_snoc. }
  rewrite Hl. simpl Tokenizer.same_unit. rewrite N.eqb_refl, slice_drop_both. reflexivity.
Qed.

Lemma each_inside (q : N) (w : list N) (a qs : list (list N)) :
  is_straight_quote q = true -> is_word w = true ->
  Tokenizer.each (Tokenizer.Vars a (Some q) qs) w = Tokenizer.Vars a (Some q) (qs ++ [w]).
Proof.
  intros Hq Hw. unfold Tokenizer.each. simpl Tokenizer.quote. cbv iota.
  rewrite (word_last_unit q w Hq Hw). reflexivity.
Qed.

Lemma each_close (q : N) (w : list N) (a qs : list (list N)) :
  Tokenizer.each (Tokenizer.Vars a (Some q) qs) (w ++ [q]) =
  Tokenizer.Vars (a ++ [join ch_space (qs ++ [w])]) None [].
Proof.
  unfold Tokenizer.each. simpl Tokenizer.quote. cbv iota.
  unfold last_unit. rewrite last_snoc. simpl Tokenizer.same_unit.
  rewrite N.eqb_refl, slice_drop_last. reflexivity.
Qed.

Lemma fold_each_inside (q : N) (toks : list (list N)) :
  is_straight_quote q = true -> forallb is_word toks = true ->
  forall a qs,
  fold_left Tokenizer.each toks (Tokenizer.Vars a (Some q) qs) =
  Tokenizer.Vars a (Some q) (qs ++ toks).
Proof.
  intros Hq. induction toks as [|t toks IH]; intros Hall a qs; simpl.
  - rewrite app_nil_r. reflexivity.
  - simpl in Hall. apply andb_prop in Hall as [Ht Hall].
    rewrite (each_inside q t a qs Hq Ht), (IH Hall), <- app_assoc. reflexivity.
Qed.

Lemma fold_each_close_last (q : N) (rest : list (list N)) :
  is_straight_quote q = true -> rest <> [] -> forallb is_word rest = true ->
  forall a qs,
  fold_left Tokenizer.each (close_last q rest) (Tokenizer.Vars a (Some q) qs) =
  Tokenizer.Vars (a ++ [join ch_space (qs ++ rest)]) None [].
Proof.
  intros Hq. induction rest as [|w rest IH]; [congruence|]. intros _ Hall a qs.
  simpl in Hall. apply andb_prop in Hall as [Hw Hall].
  destruct rest as [|w' rest].
  - simpl. apply each_close.
  - change (close_last q (w :: w' :: rest)) with (w :: close_last q (w' :: rest)).
    simpl fold_left. rewrite (each_inside q w a qs Hq Hw).
    rewrite IH by (auto; discriminate). rewrite <- app_assoc. reflexivity.
Qed.

(** A quoted span, one word or several, becomes one argument. *)
Lemma fold_each_quote_words (q : N) (ws : list (list N)) (a : list (list N)) :
  is_straight_quote q = true -> ws <> [] -> forallb is_word ws = true ->
  fold_left Tokenizer.each (quote_words q ws) (Tokenizer.Vars a None []) =
  Tokenizer.Vars (a ++ [join ch_space ws]) None [].
Proof.
  intros Hq Hne Hall. destruct ws as [|w rest]; [congruence|].
  simpl in Hall. apply andb_prop in Hall as [Hw Hall].
  destruct rest as [|w' rest].
  - simpl. apply each_single, Hq.
  - change (quote_words q (w :: w' :: rest)) with ((q :: w) :: close_last q (w' :: rest)).
    cbn [fold_left]. rewrite (each_open q w a [] Hq Hw).
    rewrite (fold_each_close_last q (w' :: rest) Hq ltac:(discriminate) Hall a [w]).
    reflexivity.
Qed.

Lemma solid_units (t : list N) :
  is_solid t = true -> t <> [] /\ forallb solid_unit t = true.
Proof. destruct t; [discriminate|]. intros H. split; [discriminate | exact H]. Qed.

Lemma solid_unit_spec (c : N) :
  solid_unit c = true -> is_white_space c = false /\ normal_unit c = c.
Proof.
  unfold solid_unit. intros H. apply andb_prop in H as [H1 H2].
  apply negb_true_iff in H1. apply N.eqb_eq in H2. auto.
Qed.

Lemma plain_unit_solid (c : N) : plain_unit c = true -> solid_unit c = true.
Proof.
  intros H. apply plain_unit_spec in H as [Hw Hq]. unfold solid_unit.
  rewrite Hw. simpl. apply N.eqb_eq.
  destruct (no_quote_unit c Hq) as (_ & H1 & H2).
  unfold normal_unit. rewrite H1, H2. reflexivity.
Qed.

Lemma straight_quote_solid (q : N) : is_straight_quote q = true -> solid_unit q = true.
Proof.
  unfold is_straight_quote. intros H.
  apply orb_prop in H as [H | H]; apply N.eqb_eq in H; subst q; reflexivity.
Qed.

Lemma word_solid (w : list N) : is_word w = true -> is_solid w = true.
Proof.
  destruct w as [|c w]; [discriminate|]. intros H. unfold is_solid.
  eapply forallb_weaken; [apply plain_unit_solid | exact H].
Qed.

Lemma words_solid (ws : list (list N)) :
  forallb is_word ws = true -> forallb is_solid ws = true.
Proof.
  induction ws as [|w ws IH]; simpl; [auto|]. intros H.
  apply andb_prop in H as [Hw Hws]. rewrite (word_solid w Hw), (IH Hws). reflexivity.
Qed.

Lemma solid_cons (q : N) (t : list N) :
  solid_unit q = true -> forallb solid_unit t = true -> is_solid (q :: t) = true.
Proof. intros Hq Ht. simpl. rewrite Hq, Ht. reflexivity. Qed.

Lemma solid_snoc (t : list N) (q : N) :
  solid_unit q = true -> forallb solid_unit t = true -> is_solid (t ++ [q]) = true.
Proof.
  intros Hq Ht. destruct t as [|c t]; simpl in *; [rewrite Hq; reflexivity|].
  apply andb_prop in Ht as [Hc Ht]. rewrite Hc, forallb_app, Ht. simpl. rewrite Hq. reflexivity.
Qed.

Lemma close_last_solid (q : N) (rest : list (list N)) :
  is_straight_quote q = true -> forallb is_word rest = true ->
  forallb is_solid (close_last q rest) = true.
Proof.
  intros Hq. induction rest as [|w rest IH]; [reflexivity|]. intros Hall.
  simpl in Hall. apply andb_prop in Hall as [Hw Hall].
  destruct rest as [|w' rest].
  - simpl. rewrite andb_true_r. apply solid_snoc; [apply straight_quote_solid, Hq|].
    apply word_solid, solid_units in Hw. apply Hw.
  - change (close_last q (w :: w' :: rest)) with (w :: close_last q (w' :: rest)).
    cbn [forallb]. rewrite (word_solid w Hw), (IH Hall). reflexivity.
Qed.

Lemma quote_words_solid (q : N) (ws : list (list N)) :
  is_straight_quote q = true -> forallb is_word ws = true ->
  forallb is_solid (quote_words q ws) = true.
Proof.
  intros Hq Hall. destruct ws as [|w rest]; [reflexivity|].
  simpl in Hall. apply andb_prop in Hall as [Hw Hall].
  pose proof (straight_quote_solid q Hq) as Hsq.
  pose proof (proj2 (solid_units w (word_solid w Hw))) as Hu.
  destruct rest as [|w' rest].
  - cbn [quote_words forallb]. rewrite andb_true_r.
    apply solid_cons; [exact Hsq|]. rewrite forallb_app, Hu. simpl. rewrite Hsq. reflexivity.
  - change (quote_words q (w :: w' :: rest)) with ((q :: w) :: close_last q (w' :: rest)).
    cbn [forallb]. rewrite (solid_cons q w Hsq Hu), (close_last_solid q _ Hq Hall). reflexivity.
Qed.

Lemma join_close_last (q : N) (rest : list (list N)) :
  rest <> [] -> join ch_space (close_last q rest) = join ch_space rest ++ [q].
Proof.
  induction rest as [|w rest IH]; [congruence|]. intros _.
  destruct rest as [|w' rest]; [reflexivity|].
  change (close_last q (w :: w' :: rest)) with (w :: close_last q (w' :: rest)).
  assert (Hc : exists t r, close_last q (w' :: rest) = t :: r).
  { destruct rest; simpl; eauto. }
  destruct Hc as (t & r & Hc). rewrite Hc, !join_cons2, <- Hc, IH by discriminate.
  rewrite <- app_assoc. reflexivity.
Qed.

Lemma join_quote_words (q : N) (ws : list (list N)) :
  ws <> [] -> join ch_space (quote_words q ws) = q :: join ch_space ws ++ [q].
Proof.
  intros Hne. destruct ws as [|w rest]; [congruence|].
  destruct rest as [|w' rest]; [reflexivity|].
  change (quote_words q (w :: w' :: rest)) with ((q :: w) :: close_last q (w' :: rest)).
  assert (Hc : exists t r, close_last q (w' :: rest) = t :: r).
  { destruct rest; simpl; eauto. }
  destruct Hc as (t & r & Hc). rewrite Hc, !join_cons2, <- Hc.
  rewrite join_close_last by discriminate. simpl. rewrite <- app_assoc. reflexivity.
Qed.

Lemma join_flatten (pre G post : list (list N)) :
  G <> [] ->
  join ch_space (pre ++ [join ch_space G] ++ post) = join ch_space (pre ++ G ++ post).
Proof.
  intros HG.
  assert (Hmid : join ch_space ([join ch_space G] ++ post) = join ch_space (G ++ post)).
  { destruct post as [|p post]; [rewrite !app_nil_r; reflexivity|].
    rewrite (join_app _ G (p :: post)) by (auto; discriminate). reflexivity. }
  destruct pre as [|p pre]; [exact Hmid|].
  rewrite (join_app _ (p :: pre) ([join ch_space G] ++ post)) by discriminate.
  rewrite (join_app _ (p :: pre) (G ++ post)); [rewrite Hmid; reflexivity | discriminate |].
  destruct G; [congruence | discriminate].
Qed.

Lemma solid_free_of_space (t : list N) : is_solid t = true -> free_of ch_space t = true.
Proof.
  intros H. apply solid_units in H as [_ H]. unfold free_of.
  eapply forallb_weaken; [|exact H]. intros c Hc.
  apply solid_unit_spec in Hc as [Hc _].
  destruct (c =? ch_space)%N eqn:E; [|reflexivity].
  apply N.eqb_eq in E. subst c. discriminate.
Qed.

Lemma Forall_of_forallb {A} (P : A -> bool) (Q : A -> Prop) (l : list A) :
  (forall x, P x = true -> Q x) -> forallb P l = true -> Forall Q l.
Proof.
  intros HPQ. induction l as [|x l IH]; simpl; [constructor|]. intros H.
  apply andb_prop in H as [Hx Hl]. constructor; auto.
Qed.

Lemma trim_join_solid (toks : list (list N)) :
  toks <> [] -> forallb is_solid toks = true ->
  trim (join ch_space toks) = join ch_space toks.
Proof.
  intros Hne Hall.
  assert (Hhead : exists c s, join ch_space toks = c :: s /\ is_white_space c = false).
  { destruct toks as [|t r]; [congruence|]. simpl in Hall.
    apply andb_prop in Hall as [Ht _]. destruct t as [|c t]; [discriminate|].
    simpl in Ht. apply andb_prop in Ht as [Hc _]. apply solid_unit_spec in Hc as [Hc _].
    destruct r; simpl; eauto. }
  assert (Hlast : exists s d, join ch_space toks = s ++ [d] /\ is_white_space d = false).
  { destruct (exists_last Hne) as (T0 & t & ->).
    rewrite forallb_app in Hall. apply andb_prop in Hall as [_ Ht]. simpl in Ht.
    rewrite andb_true_r in Ht. apply solid_units in Ht as [Htne Ht].
    destruct (exists_last Htne) as (l & d & ->).
    rewrite forallb_app in Ht. apply andb_prop in Ht as [_ Hd]. simpl in Hd.
    rewrite andb_true_r in Hd. apply solid_unit_spec in Hd as [Hd _].
    destruct T0 as [|t0 T0].
    - exists l, d. auto.
    - rewrite (join_app _ (t0 :: T0) [l ++ [d]]) by discriminate.
      exists (join ch_space (t0 :: T0) ++ ch_space :: l), d.
      split; [|exact Hd]. simpl join at 2. rewrite <- app_assoc. reflexivity. }
  destruct Hhead as (c & s & Hs & Hc). destruct Hlast as (s' & d & Hs' & Hd).
  unfold trim. rewrite Hs, (trim_start_id c s Hc), <- Hs, Hs'. apply trim_end_id, Hd.
Qed.

Lemma normalize_join_solid (toks : list (list N)) :
  forallb is_solid toks = true ->
  normalize (join ch_space toks) = join ch_space toks.
Proof.
  intros Hall. rewrite normalize_map.
  assert (H : forallb (fun c => (normal_unit c =? c)%N) (join ch_space toks) = true).
  { apply forallb_join; [reflexivity|].
    eapply Forall_of_forallb; [|exact Hall]. intros t Ht.
    apply solid_units in Ht as [_ Ht]. eapply forallb_weaken; [|exact Ht].
    intros c Hc. apply solid_unit_spec in Hc as [_ Hc]. apply N.eqb_eq, Hc. }
  induction (join ch_space toks) as [|c s IH]; [reflexivity|].
  simpl in *. apply andb_prop in H as [Hc Hs]. apply N.eqb_eq in Hc.
  rewrite Hc, (IH Hs). reflexivity.
Qed.

(** For a text made of solid tokens with single spaces between them, the
    splitter runs the callback over exactly those tokens. *)
Lemma splitArgs_of_tokens (toks : list (list N)) :
  toks <> [] -> forallb is_solid toks = true ->
  Tokenizer.splitArgs (join ch_space toks) =
  match Tokenizer.quotedstring (fold_left Tokenizer.each toks (Tokenizer.Vars [] None [])) with
  | [] => Tokenizer.args (fold_left Tokenizer.each toks (Tokenizer.Vars [] None []))
  | _ :: _ =>
      Tokenizer.args (fold_left Tokenizer.each toks (Tokenizer.Vars [] None [])) ++
      [join ch_space
         (Tokenizer.quotedstring (fold_left Tokenizer.each toks (Tokenizer.Vars [] None [])))]
  end.
Proof.
  intros Hne Hall. unfold Tokenizer.splitArgs.
  fold (normalize (trim (join ch_space toks))).
  rewrite (trim_join_solid toks Hne Hall), (normalize_join_solid toks Hall).
  rewrite split_join; [reflexivity | exact Hne |].
  eapply Forall_of_forallb; [|exact Hall]. apply solid_free_of_space.
Qed.

Lemma words_plain_tokens (ws : list (list N)) :
  forallb is_word ws = true ->
  Forall (fun t => Tokenizer.is_quote_unit (first_unit t) = false) ws.
Proof. apply Forall_of_forallb. apply word_first_unit. Qed.

(** Words before, a quoted span of one or more words, words after: the
    span is one argument, without its quote marks, among the others. *)
Theorem splitArgs_quoted_span_among_words (q : N) (pre ws post : list (list N)) :
  is_straight_quote q = true ->
  forallb is_word pre = true -> ws <> [] -> forallb is_word ws = true ->
  forallb is_word post = true ->
  Tokenizer.splitArgs (join ch_space (pre ++ [q :: join ch_space ws ++ [q]] ++ post))
  = pre ++ [join ch_space ws] ++ post.
Proof.
  intros Hq Hpre Hne Hws Hpost.
  assert (HG : quote_words q ws <> []).
  { destruct ws as [|w [|w' r]]; [congruence | discriminate | discriminate]. }
  rewrite <- (join_quote_words q ws Hne), (join_flatten pre _ post HG).
  rewrite splitArgs_of_tokens.
  - rewrite !fold_left_app.
    rewrite (fold_each_plain pre (words_plain_tokens pre Hpre)).
    rewrite (fold_each_quote_words q ws _ Hq Hne Hws).
    rewrite (fold_each_plain post (words_plain_tokens post Hpost)).
    simpl. rewrite <- app_assoc. reflexivity.
  - destruct pre; [|discriminate]. destruct (quote_words q ws); [congruence | discriminate].
  - rewrite !forallb_app, (words_solid pre Hpre), (words_solid post Hpost),
      (quote_words_solid q ws Hq Hws). reflexivity.
Qed.

Lemma splitArgs_quoted_span_among_words_witness :
  Tokenizer.splitArgs (js "remind me 'buy milk and eggs' tomorrow")
  = [js "remind"; js "me"; js "buy milk and eggs"; js "tomorrow"].
Proof.
  exact (splitArgs_quoted_span_among_words ch_squote [js "remind"; js "me"]
           [js "buy"; js "milk"; js "and"; js "eggs"] [js "tomorrow"]
           eq_refl eq_refl ltac:(discriminate) eq_refl eq_refl).
Defined.

(** A quote mark that is never closed: everything after it is one final
    argument, and no error is raised. *)
Theorem splitArgs_unclosed_quote (q : N) (pre ws : list (list N)) :
  is_straight_quote q = true ->
  forallb is_word pre = true -> ws <> [] -> forallb is_word ws = true ->
  Tokenizer.splitArgs (join ch_space (pre ++ [q :: join ch_space ws]))
  = pre ++ [join ch_space ws].
Proof.
  intros Hq Hpre Hne Hws. destruct ws as [|w rest]; [congruence|].
  simpl in Hws. apply andb_prop in Hws as [Hw Hrest].
  assert (Hj : q :: join ch_space (w :: rest) = join ch_space ((q :: w) :: rest)).
  { destruct rest; reflexivity. }
  rewrite Hj.
  change (pre ++ [join ch_space ((q :: w) :: rest)])
    with (pre ++ [join ch_space ((q :: w) :: rest)] ++ []).
  rewrite (join_flatten pre ((q :: w) :: rest) []) by discriminate.
  rewrite app_nil_r, splitArgs_of_tokens.
  - rewrite fold_left_app.
    rewrite (fold_each_plain pre (words_plain_tokens pre Hpre)).
    cbn [fold_left]. rewrite (each_open q w _ [] Hq Hw).
    rewrite (fold_each_inside q rest Hq Hrest). simpl. reflexivity.
  - destruct pre; discriminate.
  - rewrite forallb_app, (words_solid pre Hpre). cbn [forallb andb].
    rewrite (words_solid rest Hrest), andb_true_r.
    apply solid_cons; [apply straight_quote_solid, Hq|].
    apply (solid_units w (word_solid w Hw)).
Qed.

Lemma splitArgs_unclosed_quote_witness :
  Tokenizer.splitArgs (js "say 'it is fine") = [js "say"; js "it is fine"].
Proof.
  exact (splitArgs_unclosed_quote ch_squote [js "say"] [js "it"; js "is"; js "fine"]
           eq_refl eq_refl ltac:(discriminate) eq_refl).
Defined.

(** ** Address prompts *)

Lemma strip_prefix_spec (p s r : list N) : strip_prefix p s = Some r <-> s = p ++ r.
Proof.
  revert s. induction p as [|a p IH]; intros s; simpl.
  - split; [intros H; injection H as ->; reflexivity | intros ->; reflexivity].
  - destruct s as [|b s]; [split; discriminate|].
    destruct (a =? b)%N eqn:E.
    + apply N.eqb_eq in E. subst b. rewrite IH. split; [intros ->; reflexivity|].
      intros H. injection H as ->. reflexivity.
    + apply N.eqb_neq in E. split; [discriminate|]. intros H. injection H as -> _. congruence.
Qed.

Lemma strip_prefix_app (p r : list N) : strip_prefix p (p ++ r) = Some r.
Proof. apply strip_prefix_spec. reflexivity. Qed.

(** A name cannot be found one unit late when the unit after it differs
    from its first. *)
Lemma strip_prefix_shifted (c d : N) (n r : list N) :
  c <> d -> strip_prefix (c :: n) (n ++ d :: r) = None.
Proof.
  revert c. induction n as [|a n IH]; intros c Hcd; simpl.
  - apply N.eqb_neq in Hcd. rewrite Hcd. reflexivity.
  - destruct (c =? a)%N eqn:E; [|reflexivity].
    apply N.eqb_eq in E. subst a. apply IH, Hcd.
Qed.

Lemma prompt_after_sound (consumed name s : list N) (m : exec_result) :
  prompt_after consumed name s = Some m ->
  index m = 0%nat /\
  exists sfx rest, (sfx = [ch_space] \/ sfx = [ch_colon; ch_space]) /\
                   matched0 m = consumed ++ name ++ sfx /\ s = name ++ sfx ++ rest.
Proof.
  unfold prompt_after. destruct (strip_prefix name s) as [r|] eqn:Es; [|discriminate].
  apply strip_prefix_spec in Es. subst s.
  destruct r as [|c1 [|c2 r]].
  - discriminate.
  - destruct (c1 =? ch_space)%N eqn:E1; [|discriminate].
    apply N.eqb_eq in E1. subst c1. intros H. injection H as <-.
    split; [reflexivity|]. exists [ch_space], []. auto.
  - destruct ((c1 =? ch_colon) && (c2 =? ch_space))%N eqn:E.
    + apply andb_prop in E as [E1 E2]. apply N.eqb_eq in E1, E2. subst c1 c2.
      intros H. injection H as <-. split; [reflexivity|].
      exists [ch_colon; ch_space], r. auto.
    + destruct (c1 =? ch_space)%N eqn:E1; [|discriminate].
      apply N.eqb_eq in E1. subst c1. intros H. injection H as <-.
      split; [reflexivity|]. exists [ch_space], (c2 :: r). auto.
Qed.

Lemma prompt_after_space (consumed name rest : list N) :
  prompt_after consumed name (name ++ [ch_space] ++ rest)
  = Some (Match 0 (consumed ++ name ++ [ch_space])).
Proof.
  unfold prompt_after. rewrite strip_prefix_app. destruct rest; reflexivity.
Qed.

Lemma prompt_after_colon (consumed name rest : list N) :
  prompt_after consumed name (name ++ [ch_colon; ch_space] ++ rest)
  = Some (Match 0 (consumed ++ name ++ [ch_colon; ch_space])).
Proof. unfold prompt_after. rewrite strip_prefix_app. reflexivity. Qed.

Lemma prompt_sound (name s : list N) (m : exec_result) :
  prompt name s = Some m ->
  index m = 0%nat /\ In (matched0 m) (address_forms name) /\
  exists rest, s = matched0 m ++ rest.
Proof.
  assert (Hplain : prompt_after [] name s = Some m ->
    index m = 0%nat /\ In (matched0 m) (address_forms name) /\
    exists rest, s = matched0 m ++ rest).
  { intros H. apply prompt_after_sound in H as (Hi & sfx & rest & Hs & Hm & ->).
    split; [exact Hi|]. simpl in Hm. rewrite Hm. split.
    - destruct Hs as [-> | ->]; simpl; auto.
    - exists rest. rewrite <- app_assoc. reflexivity. }
  unfold prompt. destruct s as [|c s']; [exact Hplain|].
  destruct (c =? ch_at)%N eqn:E; [|exact Hplain].
  apply N.eqb_eq in E. subst c.
  destruct (prompt_after [ch_at] name s') as [m'|] eqn:Eat; [|exact Hplain].
  intros H. injection H as <-.
  apply prompt_after_sound in Eat as (Hi & sfx & rest & Hs & Hm & ->).
  split; [exact Hi|]. rewrite Hm. split.
  - destruct Hs as [-> | ->]; simpl; auto.
  - exists rest. simpl. rewrite <- app_assoc. reflexivity.
Qed.

(** A prompt matches only at the start of the text, and what it matches is
    one of the four address forms of its name. *)
Theorem prompt_matches_address_form (name s : list N) (m : exec_result) :
  prompt name s = Some m ->
  index m = 0%nat /\ In (matched0 m) (address_forms name) /\
  exists rest, s = matched0 m ++ rest.
Proof. apply prompt_sound. Qed.

Lemma prompt_matches_address_form_witness :
  prompt (js "fritbot") (js "@fritbot: roll 2d6")
    = Some (Match 0 (js "@fritbot: ")) /\
  In (js "@fritbot: ") (address_forms (js "fritbot")).
Proof.
  assert (H : prompt (js "fritbot") (js "@fritbot: roll 2d6")
              = Some (Match 0 (js "@fritbot: "))) by reflexivity.
  split; [exact H|].
  exact (proj1 (proj2 (prompt_matches_address_form (js "fritbot") (js "@fritbot: roll 2d6")
                         (Match 0 (js "@fritbot: ")) H))).
Defined.

Lemma prompt_on_address_form (name form rest : list N) :
  In form (address_forms name) -> prompt name (form ++ rest) = Some (Match 0 form).
Proof.
  assert (Hno_at : forall sfx, (sfx = [ch_space] \/ sfx = [ch_colon; ch_space]) ->
    prompt name (name ++ sfx ++ rest) = Some (Match 0 (name ++ sfx))).
  { intros sfx Hs.
    assert (Hplain : prompt_after [] name (name ++ sfx ++ rest) = Some (Match 0 (name ++ sfx))).
    { destruct Hs as [-> | ->]; [apply prompt_after_space | apply prompt_after_colon]. }
    unfold prompt. destruct name as [|c n].
    - destruct Hs as [-> | ->]; exact Hplain.
    - change ((c :: n) ++ sfx ++ rest) with (c :: (n ++ sfx ++ rest)) at 1.
      cbv iota. destruct (c =? ch_at)%N eqn:E; [|exact Hplain].
      apply N.eqb_eq in E. subst c.
      assert (Hat : prompt_after [ch_at] (ch_at :: n) (n ++ sfx ++ rest) = None).
      { unfold prompt_after.
        destruct Hs as [-> | ->]; simpl app;
          rewrite strip_prefix_shifted by discriminate; reflexivity. }
      rewrite Hat. exact Hplain. }
  intros Hin. simpl in Hin.
  destruct Hin as [<- | [<- | [<- | [<- | []]]]].
  - rewrite <- app_assoc. apply (Hno_at [ch_space]). auto.
  - rewrite <- app_assoc. apply (Hno_at [ch_colon; ch_space]). auto.
  - unfold prompt. change ((ch_at :: name ++ [ch_space]) ++ rest)
      with (ch_at :: ((name ++ [ch_space]) ++ rest)).
    cbv iota. rewrite N.eqb_refl, <- app_assoc, prompt_after_space. reflexivity.
  - unfold prompt. change ((ch_at :: name ++ [ch_colon; ch_space]) ++ rest)
      with (ch_at :: ((name ++ [ch_colon; ch_space]) ++ rest)).
    cbv iota. rewrite N.eqb_refl, <- app_assoc, prompt_after_colon. reflexivity.
Qed.

(** For a name without metacharacters, each of the four address forms in
    front of a text is recognised and sliced off: the message is flagged
    as a command and the working text is what follows the form. *)
Theorem address_form_is_stripped (name form rest : list N) (isCommand : bool) :
  literal_name name = true ->
  In form (address_forms name) ->
  strip_prompt (new_prompts [name]) isCommand (form ++ rest) = (true, rest).
Proof.
  intros _ Hin. simpl. rewrite (prompt_on_address_form name form rest Hin).
  simpl matched0. rewrite slice_after_prefix. reflexivity.
Qed.

Lemma address_form_is_stripped_witness :
  strip_prompt (new_prompts [js "fritbot"]) false (js "fritbot roll 2d6")
  = (true, js "roll 2d6").
Proof.
  exact (address_form_is_stripped (js "fritbot") (js "fritbot ") (js "roll 2d6") false
           eq_refl (or_introl eq_refl)).
Defined.

(** Every address form of a name without metacharacters ends in a space,
    so a text without one is never an address of it: the bare name, with
    or without at-sign or colon, is not. *)
Theorem prompt_needs_space (name s : list N) :
  literal_name name = true ->
  free_of ch_space s = true -> prompt name s = None.
Proof.
  intros _ Hfree. destruct (prompt name s) as [m|] eqn:E; [|reflexivity]. exfalso.
  apply prompt_sound in E as (_ & Hin & rest & ->).
  unfold free_of in Hfree. rewrite forallb_app in Hfree.
  apply andb_prop in Hfree as [Hfree _].
  assert (Hsp : forall x, forallb (fun c => negb (c =? ch_space)%N) (x ++ [ch_space]) = false).
  { intros x. rewrite forallb_app. simpl. apply andb_false_r. }
  simpl in Hin. destruct Hin as [H | [H | [H | [H | []]]]]; rewrite <- H in Hfree.
  - rewrite Hsp in Hfree. discriminate.
  - change [ch_colon; ch_space] with ([ch_colon] ++ [ch_space]) in Hfree.
    rewrite app_assoc, Hsp in Hfree. discriminate.
  - change (ch_at :: name ++ [ch_space]) with ((ch_at :: name) ++ [ch_space]) in Hfree.
    rewrite Hsp in Hfree. discriminate.
  - change (ch_at :: name ++ [ch_colon; ch_space])
      with ((ch_at :: name) ++ [ch_colon] ++ [ch_space]) in Hfree.
    rewrite app_assoc, Hsp in Hfree. discriminate.
Qed.

Lemma prompt_needs_space_witness :
  prompt (js "fritbot") (js "@fritbot:") = None.
Proof. exact (prompt_needs_space (js "fritbot") (js "@fritbot:") eq_refl eq_refl). Defined.

(** What address detection returns for the prompts built from configured
    names without metacharacters: either no prompt matched and flag and
    text are as they came, or the flag is set and exactly one address form
    of a configured name was taken off the front. *)
Theorem strip_prompt_takes_one_address (responds_to : list (list N))
    (isCommand flag : bool) (message text : list N) :
  forallb literal_name responds_to = true ->
  strip_prompt (new_prompts responds_to) isCommand message = (flag, text) ->
  (flag = isCommand /\ text = message /\
   Forall (fun name => prompt name message = None) responds_to) \/
  (flag = true /\
   exists name form, In name responds_to /\ In form (address_forms name) /\
                     message = form ++ text).
Proof.
  intros _. induction responds_to as [|name names IH]; simpl.
  - intros H. injection H as <- <-. left. auto.
  - destruct (prompt name message) as [m|] eqn:E.
    + intros H. injection H as <- <-. right. split; [reflexivity|].
      apply prompt_sound in E as (_ & Hin & rest & Hs).
      exists name, (matched0 m). split; [auto|]. split; [exact Hin|].
      subst message. rewrite slice_after_prefix. reflexivity.
    + intros H. destruct (IH H) as [(Hf & Ht & Hall) | (Hf & name' & form & Hin & Hform & Hs)].
      * left. auto.
      * right. split; [exact Hf|]. exists name', form. auto.
Qed.

Lemma strip_prompt_takes_one_address_witness :
  strip_prompt (new_prompts [js "fritbot"; js "frit"]) false (js "frit: frit: hi")
  = (true, js "frit: hi") /\
  exists name form, In name [js "fritbot"; js "frit"] /\ In form (address_forms name) /\
                    js "frit: frit: hi" = form ++ js "frit: hi".
Proof.
  assert (H : strip_prompt (new_prompts [js "fritbot"; js "frit"]) false (js "frit: frit: hi")
              = (true, js "frit: hi")) by reflexivity.
  split; [exact H|].
  destruct (strip_prompt_takes_one_address [js "fritbot"; js "frit"] false true
              (js "frit: frit: hi") (js "frit: hi") eq_refl H) as [(Hf & _) | (_ & Hex)].
  - discriminate Hf.
  - exact Hex.
Defined.

(** ** More on the squelch table *)

(** Squelching or unsquelching one room leaves every other room as it
    was, for keys the array keeps as ordinary entries (neither length nor
    __proto__). *)
Theorem squelch_leaves_other_rooms (room : option (list N)) (on : option bool)
    (other : list N) (w : world) :
  reserved_key (property_key room) = false -> reserved_key other = false ->
  property_key room <> other ->
  squelched (Some other) (squelch room on w) = squelched (Some other) w.
Proof.
  intros _ _ Hne. destruct other as [|c other]; [reflexivity|].
  unfold squelched, squelch. simpl.
  rewrite lookup_insert_ne by exact Hne. reflexivity.
Qed.

Lemma squelch_leaves_other_rooms_witness :
  squelched (Some (js "lobby")) (squelch (Some (js "games")) (Some true) noon)
  = squelched (Some (js "lobby")) noon.
Proof.
  exact (squelch_leaves_other_rooms (Some (js "games")) (Some true) (js "lobby") noon
           eq_refl eq_refl ltac:(discriminate)).
Defined.

(** A later call for the same room replaces the earlier entry whole: after
    it the table is as if the earlier call had never been made. *)
Theorem squelch_last_call_wins (room : option (list N)) (first second : option bool)
    (t : Z) (w : world) :
  squelch room second (at_time t (squelch room first w)) = squelch room second (at_time t w).
Proof.
  unfold squelch, at_time. simpl. rewrite insert_insert_eq. reflexivity.
Qed.

(** Time alone never mutes a room: once a room is not squelched it stays
    so at every later instant, until [squelch] is called again. *)
Theorem squelch_expiry_is_final (room : option (list N)) (t t' : Z) (w : world) :
  squelched room (at_time t w) = false -> t <= t' ->
  squelched room (at_time t' w) = false.
Proof.
  destruct room as [[|c id]|]; [reflexivity| |reflexivity].
  unfold squelched, at_time. simpl.
  destruct (squelch_timers w !! (c :: id)) as [timer|]; [|reflexivity].
  rewrite !Z.ltb_ge. lia.
Qed.

Lemma squelch_expiry_is_final_witness :
  squelched (Some (js "lobby"))
    (at_time (43200000 + 600000) (squelch (Some (js "lobby")) None noon)) = false /\
  squelched (Some (js "lobby"))
    (at_time (43200000 + 900000) (squelch (Some (js "lobby")) None noon)) = false.
Proof.
  assert (H : squelched (Some (js "lobby"))
                (at_time (43200000 + 600000) (squelch (Some (js "lobby")) None noon)) = false)
    by reflexivity.
  split; [exact H|].
  exact (squelch_expiry_is_final (Some (js "lobby")) (43200000 + 600000) (43200000 + 900000)
           (squelch (Some (js "lobby")) None noon) H ltac:(lia)).
Defined.

(** [squelch] called with a null room, as from a direct message, keys the
    entry by the string null: the direct conversation stays unsquelched,
    and it is a room of that name that is muted. *)
Theorem squelch_null_room (w : world) :
  squelched None (squelch None (Some true) w) = false /\
  squelched (Some (js "null")) (squelch None (Some true) w) = true /\
  forall other, other <> js "null" ->
    squelched (Some other) (squelch None (Some true) w) = squelched (Some other) w.
Proof.
  split; [reflexivity|]. split.
  - unfold squelched, squelch. simpl property_key.
    change (js "null") with [110%N; 117%N; 108%N; 108%N]. simpl.
    rewrite lookup_insert_eq. apply Z.ltb_lt. unfold ten_minutes. lia.
  - intros other Hne. destruct other as [|c other]; [reflexivity|].
    unfold squelched, squelch. simpl.
    rewrite lookup_insert_ne by congruence. reflexivity.
Qed.

Lemma squelch_null_room_witness :
  squelched (Some (js "lobby")) (squelch None (Some true) noon)
  = squelched (Some (js "lobby")) noon.
Proof.
  exact (proj2 (proj2 (squelch_null_room noon)) (js "lobby") ltac:(discriminate)).
Defined.

(** ** More on the dispatcher *)

Lemma filter_none {A} (f : A -> bool) (t : list A) :
  (forall e, In e t -> f e = false) -> List.filter f t = [].
Proof.
  induction t as [|e t IH]; intros H; simpl; [reflexivity|].
  rewrite (H e (or_introl eq_refl)). apply IH. intros e' He'. apply H. right. exact He'.
Qed.

Lemma filter_all {A} (f : A -> bool) (t : list A) :
  (forall e, In e t -> f e = true) -> List.filter f t = t.
Proof.
  induction t as [|e t IH]; intros H; simpl; [reflexivity|].
  rewrite (H e (or_introl eq_refl)). f_equal. apply IH. intros e' He'. apply H. right. exact He'.
Qed.

Lemma no_reply_filter (t : list event) : no_reply t -> List.filter is_reply t = [].
Proof.
  intros H. apply filter_none. intros e He.
  unfold no_reply in H. rewrite List.Forall_forall in H. auto.
Qed.

(** How a dispatch goes: either a command candidate exists and the trace
    is the log followed by the one call, or none exists and the trace is
    the log, the listener phase and, if that ended without a truthy
    return, the fallback. *)
Lemma handleMessage_shape
    (Array_sort : (lmatch -> lmatch -> Z) -> list lmatch -> list lmatch)
    (commands : list command) (listeners : list listener) (prompts : list regexp)
    (r : route) (message text : list N) (isCommand : bool) (w : world) :
  strip_prompt prompts (is_null (room r)) message = (isCommand, text) ->
  exists matches log,
    (if isCommand then find_commands w r text 0 commands else ([], [])) = (matches, log) /\
    ((matches <> [] /\
      handleMessage Array_sort commands listeners prompts r message w =
      (fst (fst (call_command r text (pick matches) w)),
       snd (fst (call_command r text (pick matches) w)),
       log ++ snd (call_command r text (pick matches) w))) \/
     (matches = [] /\
      exists fb,
        snd (handleMessage Array_sort commands listeners prompts r message w) =
          log ++ snd (listen Array_sort listeners r text w) ++ fb /\
        snd (fst (handleMessage Array_sort commands listeners prompts r message w)) =
          snd (fst (listen Array_sort listeners r text w)) /\
        (fb = [] \/
         fb = fallback r isCommand (snd (fst (listen Array_sort listeners r text w)))))).
Proof.
  intros Hstrip. unfold handleMessage. rewrite Hstrip.
  destruct (if isCommand then find_commands w r text 0 commands else ([], []))
    as [matches log].
  exists matches, log. split; [reflexivity|].
  destruct matches as [|m ms].
  - right. split; [reflexivity|].
    destruct (listen Array_sort listeners r text w) as [[[[|]|er] w'] tl]; cbn [fst snd].
    + exists []. rewrite app_nil_r. auto.
    + exists (fallback r isCommand w'). auto.
    + exists []. rewrite app_nil_r. auto.
  - left. split; [discriminate|].
    destruct (call_command r text (pick (m :: ms)) w) as [[res w'] tc]. reflexivity.
Qed.

Lemma handleMessage_log
    (commands : list command) (r : route) (text : list N) (isCommand : bool) (w : world)
    (matches : list cmatch) (log : list event) :
  (if isCommand then find_commands w r text 0 commands else ([], [])) = (matches, log) ->
  forall e, In e log -> e = LogNotProcessing /\ squelched (room r) w = true.
Proof.
  intros H e He. destruct isCommand; [|injection H as <- <-; destruct He].
  assert (Hlog : log = snd (find_commands w r text 0 commands)) by (rewrite H; reflexivity).
  subst log. split; [eapply find_commands_log; eauto|].
  clear H. revert He. generalize 0%nat.
  induction commands as [|c cs IH]; intros k; simpl; [tauto|].
  specialize (IH (S k)). destruct (find_commands w r text (S k) cs) as [ms lg].
  simpl in IH.
  destruct (c_trigger c text) as [mt|]; [|exact IH].
  destruct (index mt =? 0)%nat; [|exact IH].
  destruct (c_core c); simpl; [exact IH|].
  destruct (squelched (room r) w); simpl; [reflexivity | exact IH].
Qed.

Lemma call_command_shape (r : route) (text : list N) (matched : cmatch) (w : world) :
  (snd (call_command r text matched w) = [] /\ snd (fst (call_command r text matched w)) = w) \/
  exists i args, snd (call_command r text matched w) = [CommandCalled i r args].
Proof.
  unfold call_command. destruct (cm_func matched) as [[i func]|]; [|left; auto].
  right. destruct (func r _ w) as [[v|er] w']; eauto.
Qed.

Lemma listen_trace
    (Array_sort : (lmatch -> lmatch -> Z) -> list lmatch -> list lmatch)
    (listeners : list listener) (r : route) (text : list N) (w : world) (e : event) :
  In e (snd (listen Array_sort listeners r text w)) ->
  squelched (room r) w = false /\ exists i, e = ListenerCalled i r text.
Proof.
  unfold listen. destruct (squelched (room r) w); simpl; [tauto|].
  destruct (find_listeners text 0 listeners); [simpl; tauto|].
  intros He. apply run_listeners_trace in He as (lm & _ & ->). split; [reflexivity|].
  eexists. reflexivity.
Qed.

Lemma run_listeners_quiet (r : route) (text : list N) (matches : list lmatch) (w : world) :
  snd (run_listeners r text matches w) = [] ->
  matches = [] /\ snd (fst (run_listeners r text matches w)) = w.
Proof.
  destruct matches as [|m ms]; [auto|]. simpl.
  destruct (snd (lm_func m) r text w) as [[v|er] w']; [|discriminate].
  destruct (truthy v); [discriminate|].
  destruct (run_listeners r text ms w') as [[res w''] t]. discriminate.
Qed.

Lemma listen_quiet
    (Array_sort : (lmatch -> lmatch -> Z) -> list lmatch -> list lmatch)
    (listeners : list listener) (r : route) (text : list N) (w : world) :
  snd (listen Array_sort listeners r text w) = [] ->
  snd (fst (listen Array_sort listeners r text w)) = w.
Proof.
  unfold listen. destruct (negb (squelched (room r) w)); [|reflexivity].
  destruct (find_listeners text 0 listeners); [reflexivity|].
  intros H. apply run_listeners_quiet in H as [_ H]. exact H.
Qed.

Lemma fallback_replies (r : route) (isCommand : bool) (w : world) (e : event) :
  In e (fallback r isCommand w) ->
  is_reply e = true /\ is_call e = false /\ fallback r isCommand w = [e].
Proof.
  unfold fallback. destruct isCommand; [|simpl; tauto].
  destruct (squelched (room r) w); simpl; intros [<- | []]; auto.
Qed.

(** Every event of a dispatch is one of four kinds: the log line for a
    command held back (only in a squelched room), the call of a command
    (only when there is a candidate), the call of a listener with the
    working text (only in an unsquelched room and without a candidate), or
    the fallback reply (only without a candidate). *)
Lemma handleMessage_events
    (Array_sort : (lmatch -> lmatch -> Z) -> list lmatch -> list lmatch)
    (commands : list command) (listeners : list listener) (prompts : list regexp)
    (r : route) (message text : list N) (isCommand : bool) (w : world) (e : event) :
  strip_prompt prompts (is_null (room r)) message = (isCommand, text) ->
  In e (snd (handleMessage Array_sort commands listeners prompts r message w)) ->
  (e = LogNotProcessing /\ isCommand = true /\ squelched (room r) w = true) \/
  (isCommand = true /\ fst (find_commands w r text 0 commands) <> [] /\
   snd (handleMessage Array_sort commands listeners prompts r message w) =
     snd (find_commands w r text 0 commands) ++ [e] /\
   exists i args, e = CommandCalled i r args) \/
  ((isCommand = false \/ fst (find_commands w r text 0 commands) = []) /\
   squelched (room r) w = false /\ exists i, e = ListenerCalled i r text) \/
  ((isCommand = false \/ fst (find_commands w r text 0 commands) = []) /\
   exists w', fallback r isCommand w' = [e] /\ is_reply e = true).
Proof.
  intros Hstrip Hin.
  destruct (handleMessage_shape Array_sort commands listeners prompts r message text
              isCommand w Hstrip) as (matches & log & Hfind & Hshape).
  pose proof (handleMessage_log commands r text isCommand w matches log Hfind) as Hlog.
  assert (Hcmd : isCommand = true -> matches = fst (find_commands w r text 0 commands) /\
                                     log = snd (find_commands w r text 0 commands)).
  { intros ->. rewrite Hfind. auto. }
  assert (Hnone : matches = [] ->
                  isCommand = false \/ fst (find_commands w r text 0 commands) = []).
  { intros ->. destruct isCommand; [right | left; reflexivity].
    rewrite Hfind. reflexivity. }
  assert (Hflag : In e log -> isCommand = true).
  { destruct isCommand; [reflexivity|]. injection Hfind as <- <-. intros []. }
  destruct Hshape as [[Hne Heq] | [Hnil (fb & Heq & _ & Hfb)]].
  - assert (Hc : isCommand = true).
    { destruct isCommand; [reflexivity|]. injection Hfind as <- <-. congruence. }
    destruct (Hcmd Hc) as [-> ->].
    rewrite Heq in Hin. cbn [snd] in Hin. rewrite Heq. cbn [snd].
    apply in_app_or in Hin as [Hin | Hin].
    + left. destruct (Hlog e Hin) as [-> Hsq]. auto.
    + right. left.
      destruct (call_command_shape r text (pick (fst (find_commands w r text 0 commands))) w)
        as [[Hnil _] | (i & args & Hone)].
      * rewrite Hnil in Hin. destruct Hin.
      * rewrite Hone in *. destruct Hin as [<- | []]. repeat split; eauto.
  - rewrite Heq in Hin. apply in_app_or in Hin as [Hin | Hin].
    + left. destruct (Hlog e Hin) as [-> Hsq]. auto.
    + apply in_app_or in Hin as [Hin | Hin].
      * right. right. left. apply listen_trace in Hin as [Hsq Hex]. auto.
      * right. right. right. split; [auto|].
        destruct Hfb as [-> | ->]; [destruct Hin|].
        apply fallback_replies in Hin as (Hr & _ & Hone). eauto.
Qed.

(** In a room, a message that starts with no address prompt is no command:
    no command handler runs, the dispatcher sends nothing, and listeners
    get the message as it came. *)
Theorem unaddressed_room_message
    (Array_sort : (lmatch -> lmatch -> Z) -> list lmatch -> list lmatch)
    (commands : list command) (listeners : list listener) (prompts : list regexp)
    (r : route) (message : list N) (w : world) :
  is_null (room r) = false ->
  Forall (fun p : regexp => p message = None) prompts ->
  forall e, In e (snd (handleMessage Array_sort commands listeners prompts r message w)) ->
  exists i, e = ListenerCalled i r message.
Proof.
  intros Hroom Hnone e Hin.
  pose proof (strip_prompt_no_match prompts (is_null (room r)) message Hnone) as Hstrip.
  destruct (handleMessage_events _ _ _ _ _ _ _ _ _ _ Hstrip Hin)
    as [(_ & H & _) | [(H & _) | [(_ & _ & Hex) | (_ & w' & Hfb & _)]]];
    [congruence | congruence | exact Hex |].
  rewrite Hroom in Hfb. discriminate.
Qed.

Lemma unaddressed_room_message_witness :
  exists i, ListenerCalled 0 lobby (js "roll 2d6") = ListenerCalled i lobby (js "roll 2d6").
Proof.
  exact (unaddressed_room_message InsertionSort
           [Command (re_prefix (js "roll")) false quiet]
           [Listener (re_search (js "2d6")) quiet] (new_prompts [js "fritbot"])
           lobby (js "roll 2d6") noon eq_refl
           ltac:(repeat constructor)
           (ListenerCalled 0 lobby (js "roll 2d6")) (or_introl eq_refl)).
Defined.

(** Once a command is a candidate the listeners are out of it: no listener
    is called and no fallback reply is sent, whatever the command does. *)
Theorem command_candidate_excludes_listeners
    (Array_sort : (lmatch -> lmatch -> Z) -> list lmatch -> list lmatch)
    (commands : list command) (listeners : list listener) (prompts : list regexp)
    (r : route) (message text : list N) (w : world) :
  strip_prompt prompts (is_null (room r)) message = (true, text) ->
  fst (find_commands w r text 0 commands) <> [] ->
  List.filter is_listener_call
    (snd (handleMessage Array_sort commands listeners prompts r message w)) = [] /\
  List.filter is_reply
    (snd (handleMessage Array_sort commands listeners prompts r message w)) = [].
Proof.
  intros Hstrip Hne.
  split; apply filter_none; intros e Hin;
    destruct (handleMessage_events _ _ _ _ _ _ _ _ _ _ Hstrip Hin)
      as [(-> & _) | [(_ & _ & _ & i & args & ->) | [([H | H] & _) | ([H | H] & _)]]];
    try reflexivity; try discriminate; contradiction.
Qed.

Lemma command_candidate_excludes_listeners_witness :
  List.filter is_listener_call
    (snd (handleMessage InsertionSort [Command (re_prefix (js "roll")) false quiet]
            [Listener (re_search (js "roll")) done_] [] private (js "roll 2d6") noon)) = [].
Proof.
  exact (proj1 (command_candidate_excludes_listeners InsertionSort
                  [Command (re_prefix (js "roll")) false quiet]
                  [Listener (re_search (js "roll")) done_] [] private (js "roll 2d6")
                  (js "roll 2d6") noon eq_refl ltac:(discriminate))).
Defined.

(** In a squelched room no listener is called. *)
Theorem squelched_room_calls_no_listener
    (Array_sort : (lmatch -> lmatch -> Z) -> list lmatch -> list lmatch)
    (commands : list command) (listeners : list listener) (prompts : list regexp)
    (r : route) (message : list N) (w : world) :
  squelched (room r) w = true ->
  List.filter is_listener_call
    (snd (handleMessage Array_sort commands listeners prompts r message w)) = [].
Proof.
  intros Hsq. apply filter_none. intros e Hin.
  destruct (strip_prompt prompts (is_null (room r)) message) as [isCommand text] eqn:Hstrip.
  destruct (handleMessage_events _ _ _ _ _ _ _ _ _ _ Hstrip Hin)
    as [(-> & _) | [(_ & _ & _ & i & args & ->) | [(_ & H & _) | (_ & w' & Hfb & Hr)]]];
    try reflexivity; [congruence|].
  destruct e; try discriminate; reflexivity.
Qed.

Lemma squelched_room_calls_no_listener_witness :
  List.filter is_listener_call
    (snd (handleMessage InsertionSort [] [Listener (re_search (js "hi")) done_] []
            lobby (js "hi all") (squelch (room lobby) None noon))) = [].
Proof.
  exact (squelched_room_calls_no_listener InsertionSort []
           [Listener (re_search (js "hi")) done_] [] lobby (js "hi all")
           (squelch (room lobby) None noon) eq_refl).
Defined.

(** A command call is the only handler call of its dispatch: one command
    at most, and no listener beside it. *)
Theorem command_call_stands_alone
    (Array_sort : (lmatch -> lmatch -> Z) -> list lmatch -> list lmatch)
    (commands : list command) (listeners : list listener) (prompts : list regexp)
    (r : route) (message : list N) (w : world) (e : event) :
  In e (snd (handleMessage Array_sort commands listeners prompts r message w)) ->
  is_command_call e = true ->
  List.filter is_call (snd (handleMessage Array_sort commands listeners prompts r message w))
  = [e].
Proof.
  intros Hin He.
  destruct (strip_prompt prompts (is_null (room r)) message) as [isCommand text] eqn:Hstrip.
  destruct (handleMessage_events _ _ _ _ _ _ _ _ _ _ Hstrip Hin)
    as [(-> & _) | [(_ & _ & Heq & i & args & ->) | [(_ & _ & i & ->) | (_ & w' & _ & Hr)]]];
    try discriminate.
  - rewrite Heq, List.filter_app. simpl.
    rewrite filter_none; [reflexivity|].
    intros e He'. apply find_commands_log in He'. subst e. reflexivity.
  - destruct e; discriminate.
Qed.

Lemma command_call_stands_alone_witness :
  List.filter is_call
    (snd (handleMessage InsertionSort [Command (re_prefix (js "roll")) false quiet]
            [Listener (re_search (js "roll")) done_] [] private (js "roll 2d6") noon))
  = [CommandCalled 0 private [js "2d6"]].
Proof.
  exact (command_call_stands_alone InsertionSort [Command (re_prefix (js "roll")) false quiet]
           [Listener (re_search (js "roll")) done_] [] private (js "roll 2d6") noon
           (CommandCalled 0 private [js "2d6"]) (or_introl eq_refl) eq_refl).
Defined.

(** The dispatcher itself never touches the squelch table or the clock:
    when no handler was called the world is as it was. *)
Theorem world_changes_only_through_handlers
    (Array_sort : (lmatch -> lmatch -> Z) -> list lmatch -> list lmatch)
    (commands : list command) (listeners : list listener) (prompts : list regexp)
    (r : route) (message : list N) (w : world) :
  List.filter is_call (snd (handleMessage Array_sort commands listeners prompts r message w))
    = [] ->
  snd (fst (handleMessage Array_sort commands listeners prompts r message w)) = w.
Proof.
  destruct (strip_prompt prompts (is_null (room r)) message) as [isCommand text] eqn:Hstrip.
  destruct (handleMessage_shape Array_sort commands listeners prompts r message text
              isCommand w Hstrip) as (matches & log & Hfind & Hshape).
  destruct Hshape as [[Hne Heq] | [Hnil (fb & Heq & Hw & _)]].
  - rewrite Heq. cbn [fst snd]. rewrite List.filter_app.
    destruct (call_command_shape r text (pick matches) w) as [[_ Hsame] | (i & args & Hone)];
      [intros _; exact Hsame|].
    rewrite Hone. simpl. intros H. apply app_eq_nil in H as [_ H]. discriminate.
  - rewrite Heq, Hw, !List.filter_app. intros H.
    apply app_eq_nil in H as [_ H]. apply app_eq_nil in H as [H _].
    apply listen_quiet.
    destruct (snd (listen Array_sort listeners r text w)) as [|e t] eqn:El; [reflexivity|].
    assert (He : In e (snd (listen Array_sort listeners r text w))) by (rewrite El; left; auto).
    apply listen_trace in He as [_ [i ->]]. discriminate.
Qed.

Lemma world_changes_only_through_handlers_witness :
  snd (fst (handleMessage InsertionSort [Command (re_prefix (js "roll")) false (faulty 7)]
              [Listener (re_search (js "roll")) muting] (new_prompts [js "fritbot"])
              lobby (js "fritbot: dance") noon)) = noon.
Proof.
  exact (world_changes_only_through_handlers InsertionSort
           [Command (re_prefix (js "roll")) false (faulty 7)]
           [Listener (re_search (js "roll")) muting] (new_prompts [js "fritbot"])
           lobby (js "fritbot: dance") noon eq_refl).
Defined.

(** In one pass of [handleMessage] the dispatcher itself sends at most one
    reply, and it is a fallback reply; what handlers send, and what the
    domain's listener sends for an error afterwards, is not part of the
    pass. *)
Theorem at_most_one_reply
    (Array_sort : (lmatch -> lmatch -> Z) -> list lmatch -> list lmatch)
    (commands : list command) (listeners : list listener) (prompts : list regexp)
    (r : route) (message : list N) (w : world) :
  List.filter is_reply
    (snd (handleMessage Array_sort commands listeners prompts r message w))
  = fallbacks (snd (handleMessage Array_sort commands listeners prompts r message w)) /\
  (length (fallbacks
             (snd (handleMessage Array_sort commands listeners prompts r message w)))
   <= 1)%nat.
Proof.
  destruct (strip_prompt prompts (is_null (room r)) message) as [isCommand text] eqn:Hstrip.
  destruct (handleMessage_shape Array_sort commands listeners prompts r message text
              isCommand w Hstrip) as (matches & log & Hfind & Hshape).
  assert (Hlog : no_reply log).
  { apply List.Forall_forall. intros e He.
    destruct (handleMessage_log commands r text isCommand w matches log Hfind e He) as [-> _].
    reflexivity. }
  destruct Hshape as [[_ Heq] | [_ (fb & Heq & _ & Hfb)]].
  - rewrite Heq. cbn [snd].
    pose proof (no_reply_app _ _ Hlog (call_command_no_reply r text (pick matches) w)) as Hq.
    rewrite (no_reply_filter _ Hq), (no_reply_fallbacks _ Hq). simpl. split; [reflexivity | lia].
  - rewrite Heq.
    pose proof (listen_no_reply Array_sort listeners r text w) as Hl.
    rewrite !List.filter_app, !fallbacks_app.
    rewrite (no_reply_filter _ Hlog), (no_reply_filter _ Hl).
    rewrite (no_reply_fallbacks _ Hlog), (no_reply_fallbacks _ Hl). simpl.
    destruct Hfb as [-> | ->]; [simpl; split; [reflexivity | lia]|].
    unfold fallback. destruct isCommand; [|simpl; split; [reflexivity | lia]].
    destruct (squelched (room r) _); simpl; split; (reflexivity || lia).
Qed.

(** Squelching does not reach direct messages: in a direct conversation no
    command is held back and the silenced reply is never sent. *)
Theorem direct_message_ignores_squelch
    (Array_sort : (lmatch -> lmatch -> Z) -> list lmatch -> list lmatch)
    (commands : list command) (listeners : list listener) (prompts : list regexp)
    (r : route) (message : list N) (w : world) (e : event) :
  room r = None ->
  In e (snd (handleMessage Array_sort commands listeners prompts r message w)) ->
  e <> LogNotProcessing /\ forall r' key arg, e <> DirectSend r' key arg.
Proof.
  intros Hroom Hin.
  destruct (strip_prompt prompts (is_null (room r)) message) as [isCommand text] eqn:Hstrip.
  destruct (handleMessage_events _ _ _ _ _ _ _ _ _ _ Hstrip Hin)
    as [(_ & _ & Hsq) | [(_ & _ & _ & i & args & ->) | [(_ & _ & i & ->) | (_ & w' & Hfb & _)]]].
  - rewrite Hroom in Hsq. discriminate.
  - split; [discriminate | intros; discriminate].
  - split; [discriminate | intros; discriminate].
  - unfold fallback in Hfb. rewrite Hroom in Hfb. simpl in Hfb.
    destruct isCommand; [|discriminate]. injection Hfb as <-.
    split; [discriminate | intros; discriminate].
Qed.

Lemma direct_message_ignores_squelch_witness :
  CommandCalled 0 private [js ""] <> LogNotProcessing.
Proof.
  exact (proj1 (direct_message_ignores_squelch InsertionSort
                  [Command (re_prefix (js "roll")) false quiet] [] [] private (js "roll")
                  (squelch None None noon) (CommandCalled 0 private [js ""])
                  eq_refl (or_introl eq_refl))).
Defined.

(** ** Registration and dispatch *)

Lemma find_commands_snoc (w : world) (r : route) (text : list N) (spec : command)
    (cs : list command) :
  (forall mt, c_trigger spec text = Some mt -> index mt <> 0%nat) ->
  forall k, find_commands w r text k (cs ++ [spec]) = find_commands w r text k cs.
Proof.
  intros Hmiss. induction cs as [|c cs IH]; intros k; simpl.
  - destruct (c_trigger spec text) as [mt|] eqn:E; [|reflexivity].
    specialize (Hmiss mt eq_refl). apply Nat.eqb_neq in Hmiss. rewrite Hmiss. reflexivity.
  - rewrite IH. reflexivity.
Qed.

Lemma find_listeners_snoc (text : list N) (spec : listener) (ls : list listener) :
  l_trigger spec text = None ->
  forall k, find_listeners text k (ls ++ [spec]) = find_listeners text k ls.
Proof.
  intros Hmiss. induction ls as [|l ls IH]; intros k; simpl.
  - rewrite Hmiss. reflexivity.
  - rewrite IH. reflexivity.
Qed.

(** Loading one more command whose trigger does not match the working text
    at offset 0 changes nothing in the dispatch of that message: the same
    handlers are called, at the same positions, with the same outcome. *)
Theorem loadCommand_without_match
    (Array_sort : (lmatch -> lmatch -> Z) -> list lmatch -> list lmatch)
    (commands : list command) (listeners : list listener) (prompts : list regexp)
    (spec : command) (r : route) (message text : list N) (isCommand : bool) (w : world) :
  strip_prompt prompts (is_null (room r)) message = (isCommand, text) ->
  (forall mt, c_trigger spec text = Some mt -> index mt <> 0%nat) ->
  handleMessage Array_sort (loadCommand spec commands) listeners prompts r message w
  = handleMessage Array_sort commands listeners prompts r message w.
Proof.
  intros Hstrip Hmiss. unfold handleMessage, loadCommand. rewrite Hstrip.
  rewrite (find_commands_snoc w r text spec commands Hmiss). reflexivity.
Qed.

Lemma loadCommand_without_match_witness :
  handleMessage InsertionSort
    (loadCommand (Command (re_search (js "2d6")) false (faulty 3))
       [Command (re_prefix (js "roll")) false quiet])
    [] [] private (js "roll 2d6") noon
  = handleMessage InsertionSort [Command (re_prefix (js "roll")) false quiet]
      [] [] private (js "roll 2d6") noon.
Proof.
  refine (loadCommand_without_match InsertionSort _ [] []
            (Command (re_search (js "2d6")) false (faulty 3)) private (js "roll 2d6")
            (js "roll 2d6") true noon eq_refl _).
  intros mt H. vm_compute in H. injection H as <-. discriminate.
Defined.

(** The same for a listener whose trigger finds nothing in the working
    text. *)
Theorem loadListener_without_match
    (Array_sort : (lmatch -> lmatch -> Z) -> list lmatch -> list lmatch)
    (commands : list command) (listeners : list listener) (prompts : list regexp)
    (spec : listener) (r : route) (message text : list N) (isCommand : bool) (w : world) :
  strip_prompt prompts (is_null (room r)) message = (isCommand, text) ->
  l_trigger spec text = None ->
  handleMessage Array_sort commands (loadListener spec listeners) prompts r message w
  = handleMessage Array_sort commands listeners prompts r message w.
Proof.
  intros Hstrip Hmiss. unfold handleMessage, listen, loadListener. rewrite Hstrip.
  rewrite (find_listeners_snoc text spec listeners Hmiss). reflexivity.
Qed.

Lemma loadListener_without_match_witness :
  handleMessage InsertionSort []
    (loadListener (Listener (re_search (js "coffee")) (faulty 4))
       [Listener (re_search (js "tea")) done_])
    [] lobby (js "more tea") noon
  = handleMessage InsertionSort [] [Listener (re_search (js "tea")) done_]
      [] lobby (js "more tea") noon.
Proof.
  exact (loadListener_without_match InsertionSort [] [Listener (re_search (js "tea")) done_] []
           (Listener (re_search (js "coffee")) (faulty 4)) lobby (js "more tea")
           (js "more tea") false noon eq_refl eq_refl).
Defined.

(** A command handler that is called belongs to a candidate, and its
    arguments are the working text after the matched substring, split. *)
Theorem called_command_gets_split_rest
    (Array_sort : (lmatch -> lmatch -> Z) -> list lmatch -> list lmatch)
    (commands : list command) (listeners : list listener) (prompts : list regexp)
    (r : route) (message text : list N) (isCommand : bool) (w : world)
    (i : nat) (r' : route) (args : list (list N)) :
  strip_prompt prompts (is_null (room r)) message = (isCommand, text) ->
  In (CommandCalled i r' args)
     (snd (handleMessage Array_sort commands listeners prompts r message w)) ->
  isCommand = true /\ r' = r /\
  exists c mt,
    commands !! i = Some c /\ c_trigger c text = Some mt /\ index mt = 0%nat /\
    (c_core c = true \/ squelched (room r) w = false) /\
    args = Tokenizer.splitArgs (slice text (Z.of_nat (length (matched0 mt))) None).
Proof. intros Hstrip. apply handleMessage_command_calls, Hstrip. Qed.

Lemma called_command_gets_split_rest_witness :
  exists c mt,
    [Command (re_prefix (js "remind")) false quiet] !! 0%nat = Some c /\
    c_trigger c (js "remind me 'buy milk'") = Some mt /\ index mt = 0%nat /\
    (c_core c = true \/ squelched (room lobby) noon = false) /\
    [js "me"; js "buy milk"] =
    Tokenizer.splitArgs (slice (js "remind me 'buy milk'")
                           (Z.of_nat (length (matched0 mt))) None).
Proof.
  exact (proj2 (proj2 (called_command_gets_split_rest InsertionSort
           [Command (re_prefix (js "remind")) false quiet] [] (new_prompts [js "fritbot"])
           lobby (js "@fritbot remind me 'buy milk'") (js "remind me 'buy milk'") true noon
           0%nat lobby [js "me"; js "buy milk"] eq_refl (or_introl eq_refl)))).
Defined.

Lemma run_listeners_never_claims (r : route) (text : list N) (matches : list lmatch) :
  (forall m, In m matches -> never_claims (snd (lm_func m))) ->
  forall w, snd (run_listeners r text matches w) = map (listener_call r text) matches.
Proof.
  induction matches as [|m ms IH]; intros Hall w; simpl; [reflexivity|].
  destruct (Hall m (or_introl eq_refl) r text w) as (v & w' & Hm & Hv).
  rewrite Hm, Hv. specialize (IH (fun m' H => Hall m' (or_intror H)) w').
  destruct (run_listeners r text ms w') as [[res w''] t]. simpl in *. rewrite IH. reflexivity.
Qed.

(** When no listener claims the message (each returns a falsy value),
    every listener whose trigger matches the working text is called, each
    exactly once: one message can draw several responses. *)
Theorem every_matching_listener_called
    (Array_sort : (lmatch -> lmatch -> Z) -> list lmatch -> list lmatch)
    (commands : list command) (listeners : list listener) (prompts : list regexp)
    (r : route) (message text : list N) (isCommand : bool) (w : world) :
  (forall f l, Permutation (Array_sort f l) l) ->
  strip_prompt prompts (is_null (room r)) message = (isCommand, text) ->
  isCommand = false \/ fst (find_commands w r text 0 commands) = [] ->
  squelched (room r) w = false ->
  Forall (fun l => never_claims (l_func l)) listeners ->
  Permutation
    (List.filter is_listener_call
       (snd (handleMessage Array_sort commands listeners prompts r message w)))
    (map (listener_call r text) (find_listeners text 0 listeners)).
Proof.
  intros Hsort Hstrip Hnone Hsq Hquiet.
  assert (Hlisten : Permutation (snd (listen Array_sort listeners r text w))
                      (map (listener_call r text) (find_listeners text 0 listeners))).
  { unfold listen. rewrite Hsq. simpl negb. cbv iota.
    destruct (find_listeners text 0 listeners) as [|m ms] eqn:Efind; [reflexivity|].
    rewrite run_listeners_never_claims.
    - apply Permutation_map, Hsort.
    - intros lm Hlm. apply (Permutation_in _ (Hsort _ _)) in Hlm. rewrite <- Efind in Hlm.
      apply find_listeners_In in Hlm as (j & l & mt & Hj & _ & ->). simpl.
      exact (Forall_lookup_1 _ _ _ _ Hquiet Hj). }
  assert (Hcalls : List.filter is_listener_call (snd (listen Array_sort listeners r text w))
                   = snd (listen Array_sort listeners r text w)).
  { apply filter_all. intros e He. apply listen_trace in He as [_ [i ->]]. reflexivity. }
  destruct (handleMessage_shape Array_sort commands listeners prompts r message text
              isCommand w Hstrip) as (matches & log & Hfind & Hshape).
  assert (Hlog : List.filter is_listener_call log = []).
  { apply filter_none. intros e He.
    destruct (handleMessage_log commands r text isCommand w matches log Hfind e He) as [-> _].
    reflexivity. }
  destruct Hshape as [[Hne _] | [_ (fb & Heq & _ & Hfb)]].
  - exfalso. apply Hne. destruct isCommand.
    + destruct Hnone as [H | H]; [discriminate|]. rewrite Hfind in H. exact H.
    + congruence.
  - rewrite Heq, !List.filter_app, Hlog, Hcalls. simpl.
    assert (Hfbn : List.filter is_listener_call fb = []).
    { apply filter_none. intros e He. destruct Hfb as [-> | ->]; [destruct He|].
      apply fallback_replies in He as (Hr & _ & _). destruct e; try discriminate; reflexivity. }
    rewrite Hfbn, app_nil_r. exact Hlisten.
Qed.

Lemma every_matching_listener_called_witness :
  Permutation
    (List.filter is_listener_call
       (snd (handleMessage InsertionSort []
               [Listener (re_search (js "tea")) quiet; Listener (re_search (js "milk")) quiet;
                Listener (re_search (js "more tea")) muting]
               [] lobby (js "more tea") noon)))
    [ListenerCalled 0 lobby (js "more tea"); ListenerCalled 2 lobby (js "more tea")].
Proof.
  refine (every_matching_listener_called InsertionSort []
            [Listener (re_search (js "tea")) quiet; Listener (re_search (js "milk")) quiet;
             Listener (re_search (js "more tea")) muting]
            [] lobby (js "more tea") (js "more tea") false noon
            (@InsertionSort_Permutation lmatch) eq_refl (or_introl eq_refl) eq_refl _).
  repeat constructor; intros r m w; eexists; eexists; split; reflexivity.
Defined.

(** Witnesses for the selection lemmas above. *)
Lemma handleMessage_calls_first_longest_witness :
  exists pre m post i c,
    fst (find_commands noon private (js "playing cards") 0
           [Command (re_prefix (js "play")) false quiet;
            Command (re_prefix (js "playing")) true quiet;
            Command (re_prefix (js "playing")) false quiet]) = pre ++ m :: post /\
    Forall (shorter_than m) pre /\ Forall (no_longer_than m) post /\
    [Command (re_prefix (js "play")) false quiet;
     Command (re_prefix (js "playing")) true quiet;
     Command (re_prefix (js "playing")) false quiet] !! i = Some c /\
    cm_func m = Some (i, c_func c) /\
    snd (handleMessage InsertionSort
           [Command (re_prefix (js "play")) false quiet;
            Command (re_prefix (js "playing")) true quiet;
            Command (re_prefix (js "playing")) false quiet] [] [] private
           (js "playing cards") noon)
    = [] ++ [CommandCalled i private
               (Tokenizer.splitArgs
                  (slice (js "playing cards") (Z.of_nat (length (cm_0 m))) None))].
Proof.
  refine (handleMessage_calls_first_longest InsertionSort
            [Command (re_prefix (js "play")) false quiet;
             Command (re_prefix (js "playing")) true quiet;
             Command (re_prefix (js "playing")) false quiet] [] [] private
            (js "playing cards") (js "playing cards") noon _ [] eq_refl eq_refl _).
  apply List.Exists_cons_hd. discriminate.
Defined.

Lemma handleMessage_all_empty_witness :
  handleMessage InsertionSort
    [Command (re_optional_prefix (js "help")) false quiet] [] [] private (js "hello") noon
  = (Threw TypeError, noon, []).
Proof.
  refine (handleMessage_all_empty InsertionSort
            [Command (re_optional_prefix (js "help")) false quiet] [] [] private
            (js "hello") (js "hello") noon _ [] [] eq_refl eq_refl _).
  repeat constructor.
Defined.

Lemma squelched_only_core_called_witness :
  exists c,
    [Command (re_prefix (js "mute")) false quiet; Command (re_prefix (js "mute")) true quiet]
      !! 1%nat = Some c /\ c_core c = true.
Proof.
  exact (squelched_only_core_called InsertionSort
           [Command (re_prefix (js "mute")) false quiet;
            Command (re_prefix (js "mute")) true quiet]
           [] (new_prompts [js "fritbot"]) lobby (js "fritbot: mute")
           (squelch (room lobby) (Some true) noon) 1%nat lobby [js ""]
           eq_refl (or_intror (or_introl eq_refl))).
Defined.
